(** * Fortuna (maruel/fortuna): a shallow embedding of the generator,
      the accumulator and their helpers, with the properties of the
      specification proved over it.

    Bytes are [Byte.byte] with coqutil's [byte.unsigned] / [byte.of_Z];
    Go's [int] is a 64-bit two's complement integer, kept as a [Z] with the
    wrap-around written out; slices are lists; a [panic] is a value of the
    [result] type. The hash functions and the AES block function are
    parameters: the code only uses them through [hash.Hash] and
    [cipher.Block]. *)

From Stdlib Require Import ZArith List Lia Bool.
From Stdlib Require Import Init.Byte.
From coqutil Require Import Byte Word.LittleEndianList Z.bitblast.
From coqutil Require Datatypes.List.
Import ListNotations.
Local Open Scope Z_scope.

(* ===================================================================== *)
(** ** Go integers and slices *)
(* ===================================================================== *)

Module GoInt.
(** [int] on the 64-bit targets: two's complement, 64 bits. *)
Definition intBits : Z := 64.
Definition maxInt : Z := 2 ^ (intBits - 1) - 1.
Definition minInt : Z := - 2 ^ (intBits - 1).

(** The value an arithmetic result takes once stored in an [int]. *)
Definition wrapInt (z : Z) : Z :=
  (z + 2 ^ (intBits - 1)) mod 2 ^ intBits - 2 ^ (intBits - 1).

(** [len(s)] as an [int]. *)
Definition len {A} (s : list A) : Z := Z.of_nat (length s).
End GoInt.
Import GoInt.

(** What a call can do besides returning: Go's run-time panics. *)
Inductive panicKind : Type :=
| SliceBounds          (* slice bounds out of range *)
| BadKeySize           (* panic(err) after aes.NewCipher *)
| InputNotFullBlock    (* crypto/aes: input not full block *)
| OutputNotFullBlock   (* crypto/aes: output not full block *)
| HashWriteFailure.    (* panic("Unexpected hash write failure") *)

Inductive result (A : Type) : Type :=
| Ok (a : A)
| Panic (p : panicKind).
Arguments Ok {A} a.
Arguments Panic {A} p.

Definition bind {A B} (r : result A) (k : A -> result B) : result B :=
  match r with
  | Ok a => k a
  | Panic p => Panic p
  end.

Declare Scope go_scope.
Delimit Scope go_scope with go.
Notation "x <- c1 ;; c2" := (bind c1 (fun x => c2))
  (at level 61, c1 at next level, right associativity) : go_scope.
Notation "' pat <- c1 ;; c2" := (bind c1 (fun x => match x with pat => c2 end))
  (at level 61, pat pattern, c1 at next level, right associativity) : go_scope.
Local Open Scope go_scope.

Module Slice.
(** [s[:hi]]: panics unless [0 <= hi <= len(s)] (the capacity of the
    slices of this program is their length wherever [s[:hi]] is used). *)
Definition to {A} (s : list A) (hi : Z) : result (list A) :=
  if (0 <=? hi) && (hi <=? len s) then Ok (firstn (Z.to_nat hi) s)
  else Panic SliceBounds.

(** [s[lo:]]: panics unless [0 <= lo <= len(s)]. *)
Definition from {A} (s : list A) (lo : Z) : result (list A) :=
  if (0 <=? lo) && (lo <=? len s) then Ok (skipn (Z.to_nat lo) s)
  else Panic SliceBounds.

(** [copy(dst, src)] seen from [dst]: the first [min(len dst, len src)]
    elements of [dst] are overwritten. *)
Definition copy {A} (dst src : list A) : list A :=
  List.upds dst 0 src.

(** [make([]byte, n)]. *)
Definition make (n : nat) : list byte := repeat x00 n.
End Slice.

(* ===================================================================== *)
(** ** counter.go *)
(* ===================================================================== *)

Module Counter.
(** [type counter []byte]: little endian. *)
Definition counter := list byte.

(** [c[i] += 1] on a [uint8]. *)
Definition byteIncr (b : byte) : byte := byte.of_Z (byte.unsigned b + 1).

(** The first loop of [incr]: the bytes after it, and whether the loop
    returned from the function ([c[i] != 0]). *)
Fixpoint incrLoop (c : counter) : counter * bool :=
  match c with
  | [] => ([], false)
  | b :: rest =>
      let b' := byteIncr b in
      if negb (Byte.eqb b' x00) then (b' :: rest, true)
      else let (rest', returned) := incrLoop rest in (b' :: rest', returned)
  end.

(** [func (c counter) incr()]: when the first loop runs to its end the
    value overflowed and every byte is set to zero. *)
Definition incr (c : counter) : counter :=
  let (c', returned) := incrLoop c in
  if returned then c' else map (fun _ => x00) c'.

(** The counter as a little-endian unsigned integer. *)
Definition value (c : counter) : Z := le_combine c.

(** [n] increments in a row. *)
Fixpoint incrN (n : nat) (c : counter) : counter :=
  match n with
  | O => c
  | S n' => incrN n' (incr c)
  end.
End Counter.

(* ===================================================================== *)
(** ** hash.Hash *)
(* ===================================================================== *)

Module Hash.
(** What the program sees of a hash function: [Size()], [BlockSize()]
    and the digest of the bytes written since the last [Reset()]. *)
Record algorithm : Type := {
  Size : nat;
  BlockSize : nat;
  digest : list byte -> list byte
}.

(** A [hash.Hash] value: its algorithm and its running state. *)
Record t : Type := {
  alg : algorithm;
  written : list byte
}.

Definition New (a : algorithm) : t := {| alg := a; written := [] |}.

Definition Reset (h : t) : t := {| alg := alg h; written := [] |}.

(** [Write] adds data to the running hash; it never returns an error
    and reports [len(data)]. The second component is [l]. *)
Definition Write (h : t) (data : list byte) : t * Z :=
  ({| alg := alg h; written := written h ++ data |}, len data).

(** [Sum(b)] appends the current digest to [b]; the state is unchanged. *)
Definition Sum (h : t) (b : list byte) : list byte :=
  b ++ digest (alg h) (written h).

(** [crypto/sha256]: [Size = 32], [BlockSize = 64]; [crypto/sha1]:
    [Size = 20], [BlockSize = 64]. The digest functions are parameters. *)
Definition sha256 (sum : list byte -> list byte) : algorithm :=
  {| Size := 32; BlockSize := 64; digest := sum |}.

Definition sha1 (sum : list byte -> list byte) : algorithm :=
  {| Size := 20; BlockSize := 64; digest := sum |}.
End Hash.

(* ===================================================================== *)
(** ** double_hash.go *)
(* ===================================================================== *)

Module DoubleHashImpl.
(** [var zeros = [256]byte{}] *)
Definition zeros : list byte := repeat x00 256.

(** [for _, i := range data { h.Write(i) ... }] *)
Fixpoint writeSegments (h : Hash.t) (data : list (list byte)) : result Hash.t :=
  match data with
  | [] => Ok h
  | i :: rest =>
      let (h', l) := Hash.Write h i in
      if negb (l =? len i) then Panic HashWriteFailure
      else writeSegments h' rest
  end.

(** [func DoubleHash(h hash.Hash, data ...[]byte) []byte]. The handle is
    shared with the caller, so the state it is left in is returned too. *)
Definition DoubleHash (h : Hash.t) (data : list (list byte))
  : result (list byte * Hash.t) :=
  let h := Hash.Reset h in
  let b := Z.of_nat (Hash.BlockSize (Hash.alg h)) in
  z <- Slice.to zeros b ;;
  let (h, l) := Hash.Write h z in
  if negb (l =? b) then Panic HashWriteFailure else
  h <- writeSegments h data ;;
  let dst := Hash.Sum h [] in
  let h := Hash.Reset h in
  let (h, l) := Hash.Write h dst in
  if negb (l =? len dst) then Panic HashWriteFailure else
  Ok (Hash.Sum h [], h).
End DoubleHashImpl.
Export DoubleHashImpl.

(* ===================================================================== *)
(** ** crypto/aes, as generator.go uses it *)
(* ===================================================================== *)

Module AES.
(** [aes.BlockSize] *)
Definition BlockSize : Z := 16.

(** The block function: key and 16-byte input block to 16-byte output. *)
Definition blockFn : Type := list byte -> list byte -> list byte.

(** A [cipher.Block] made by [aes.NewCipher]: it keeps its own copy of
    the (expanded) key. *)
Record cipher : Type := { cipherKey : list byte }.

(** [aes.NewCipher(key)]: an error unless the key has 16, 24 or 32 bytes. *)
Definition NewCipher (k : list byte) : option cipher :=
  if (len k =? 16) || (len k =? 24) || (len k =? 32)
  then Some {| cipherKey := k |} else None.

(** [c.Encrypt(dst, src)]: encrypts the first block of [src] into the
    first block of [dst]; the result is [dst] after the call. *)
Definition Encrypt (E : blockFn) (c : cipher) (dst src : list byte)
  : result (list byte) :=
  if len src <? BlockSize then Panic InputNotFullBlock
  else if len dst <? BlockSize then Panic OutputNotFullBlock
  else Ok (List.upds dst 0 (E (cipherKey c) (firstn 16 src))).
End AES.

(* ===================================================================== *)
(** ** generator.go *)
(* ===================================================================== *)

Inductive error : Type :=
| ErrNotSeeded       (* "Generator is not seeded" *)
| ErrSeedTooShort.   (* "initial seed is too short, ..." *)

Module Generator.
Import Counter.

Record generator : Type := {
  key : list byte;
  counter : Counter.counter;
  maxBytesPerRequest : Z;
  initialized : bool;
  temp : list byte;
  h : Hash.t
}.

(** [func (g *generator) Write(data []byte) (int, error)] *)
Definition Write (g : generator) (data : list byte)
  : result ((Z * option error) * generator) :=
  '(k, h') <- DoubleHash (h g) [key g; data] ;;
  Ok ((len data, None),
      {| key := k;
         counter := incr (counter g);
         maxBytesPerRequest := maxBytesPerRequest g;
         initialized := true;
         temp := temp g;
         h := h' |}).

(** [func newGenerator(h hash.Hash, seed []byte) generator];
    [sha256] stands for [sha256.New()]. *)
Definition newGenerator (sha256 : Hash.algorithm)
    (h : option Hash.t) (seed : list byte) : result generator :=
  let h := match h with None => Hash.New sha256 | Some h => h end in
  let b := Hash.Size (Hash.alg h) in
  let g := {| key := Slice.make b;
              counter := Slice.make 16;
              maxBytesPerRequest := wrapInt (Z.shiftl 1 15 * Z.of_nat b);
              initialized := false;
              temp := Slice.make b;
              h := h |} in
  if negb (len seed =? 0) then
    '(_, g') <- Write g seed ;; Ok g'
  else Ok g.

Section Blocks.
Variable E : AES.blockFn.

(** The [for i := 0; i < fullBlocks; i++] loop of [generateBlocks]:
    [n] iterations are left, [i] is the loop variable. *)
Fixpoint fullBlocksLoop (n : nat) (i : Z) (c : AES.cipher) (s : Z)
    (ctr : Counter.counter) (out : list byte)
  : result (Counter.counter * list byte) :=
  match n with
  | O => Ok (ctr, out)
  | S n' =>
      let b := i * s in
      lo <- Slice.from out b ;;
      view <- Slice.to lo s ;;
      blk <- AES.Encrypt E c view ctr ;;
      fullBlocksLoop n' (i + 1) c s (incr ctr)
        (List.upds out (Z.to_nat b) blk)
  end.

(** [func (g *generator) generateBlocks(c cipher.Block, out []byte)]:
    the generator and [out] after the call. *)
Definition generateBlocks (g : generator) (c : AES.cipher)
    (out : list byte) : result (generator * list byte) :=
  let s := AES.BlockSize in
  let fullBlocks := len out / s in
  '(ctr, out) <- fullBlocksLoop (Z.to_nat fullBlocks) 0 c s (counter g) out ;;
  if negb (len out mod s =? 0) then
    tmp <- AES.Encrypt E c (temp g) ctr ;;
    tail <- Slice.from out (fullBlocks * s) ;;
    Ok ({| key := key g;
           counter := incr ctr;
           maxBytesPerRequest := maxBytesPerRequest g;
           initialized := initialized g;
           temp := tmp;
           h := h g |},
        List.upds out (Z.to_nat (fullBlocks * s)) (Slice.copy tail tmp))
  else
    Ok ({| key := key g;
           counter := ctr;
           maxBytesPerRequest := maxBytesPerRequest g;
           initialized := initialized g;
           temp := temp g;
           h := h g |},
        out).

(** [func (g *generator) Read(data []byte) (int, error)]: the returned
    pair, the caller's buffer after the call, and the generator. The
    second [generateBlocks] writes into [g.key] itself. *)
Definition Read (g : generator) (data : list byte)
  : result ((Z * option error) * list byte * generator) :=
  if negb (initialized g) then Ok ((0, Some ErrNotSeeded), data, g) else
  view <- (if len data >? maxBytesPerRequest g
           then Slice.to data (maxBytesPerRequest g) else Ok data) ;;
  match AES.NewCipher (key g) with
  | None => Panic BadKeySize
  | Some c =>
      '(g1, view') <- generateBlocks g c view ;;
      '(g2, key') <- generateBlocks g1 c (key g1) ;;
      Ok ((len view, None),
          Slice.copy data view',
          {| key := key';
             counter := counter g2;
             maxBytesPerRequest := maxBytesPerRequest g2;
             initialized := initialized g2;
             temp := temp g2;
             h := h g2 |})
  end.

(** A run of [Read] calls on fresh buffers of the given sizes
    ([d := make([]byte, e.Len); g.Read(d)]): what each call returned
    and left in its buffer. *)
Fixpoint readAll (g : generator) (sizes : list nat)
  : result (list ((Z * option error) * list byte)) :=
  match sizes with
  | [] => Ok []
  | n :: rest =>
      '(r, d, g') <- Read g (Slice.make n) ;;
      outs <- readAll g' rest ;;
      Ok ((r, d) :: outs)
  end.
End Blocks.
End Generator.

(* ===================================================================== *)
(** ** fortuna.go *)
(* ===================================================================== *)

Module Fortuna.
Import Generator.

Definition numPools : Z := 32.
(** [minPoolSize = sha256.BlockSize] *)
Definition minPoolSize : Z := 64.

(** [time.Time], in nanoseconds; only stored by the code modelled here. *)
Definition Time : Type := Z.

(** [type countedHash struct { hash.Hash; length int }] *)
Record countedHash : Type := {
  Hash_ : Hash.t;
  length_ : Z
}.

(** [func (p *countedHash) Write(data []byte) (int, error)] *)
Definition countedWrite (p : countedHash) (data : list byte) : countedHash * Z :=
  let length' := wrapInt (length_ p + len data) in
  let (h', l) := Hash.Write (Hash_ p) data in
  ({| Hash_ := h'; length_ := length' |}, l).

(** [func (p *countedHash) Reset()] *)
Definition countedReset (p : countedHash) : countedHash :=
  {| Hash_ := Hash.Reset (Hash_ p); length_ := 0 |}.

(** [type accumulator struct]. [inflight] holds the buffers captured by
    the goroutines that [AddRandomEvent] started and that have not
    taken the lock yet. The scratch array [temp] only saves an
    allocation and is left out. *)
Record accumulator : Type := {
  numReseed : Z;
  nextPool : Z;
  lastReseed : Time;
  generator_ : generator;
  pools : list countedHash;
  inflight : list (list byte)
}.

(** The loop of [reseed]: [n] iterations are left at most, [i] and
    [mask] are the loop variables. *)
Fixpoint reseedLoop (n : nat) (i mask : Z) (numReseed : Z)
    (pools : list countedHash) (seed : list byte)
  : list countedHash * list byte :=
  match n with
  | O => (pools, seed)
  | S n' =>
      if (i <? numPools) && (Z.land numReseed mask =? 0) then
        match nth_error pools (Z.to_nat i) with
        | Some p =>
            let seed := Hash.Sum (Hash_ p) seed in
            let pools := List.upd pools (Z.to_nat i) (countedReset p) in
            let mask := wrapInt (Z.shiftl mask 1) in
            let mask := Z.lor mask 1 in
            reseedLoop n' (i + 1) mask numReseed pools seed
        | None => (pools, seed)
        end
      else (pools, seed)
  end.

(** [func (a *accumulator) reseed(now time.Time)] *)
Definition reseed (a : accumulator) (now : Time) : result accumulator :=
  let lastReseed' := now in
  let numReseed' := wrapInt (numReseed a + 1) in
  let seed := [] in
  let mask := 0 in
  let (pools', seed) :=
    reseedLoop (Z.to_nat numPools) 0 mask numReseed' (pools a) seed in
  '(_, g') <- Write (generator_ a) seed ;;
  Ok {| numReseed := numReseed';
        nextPool := nextPool a;
        lastReseed := lastReseed';
        generator_ := g';
        pools := pools';
        inflight := inflight a |}.

Section Events.
(** The digest function of [crypto/sha1]. *)
Variable sha1sum : list byte -> list byte.

(** The buffer [AddRandomEvent] builds before it starts its goroutine. *)
Definition eventBuffer (source : byte) (data : list byte) : list byte :=
  let buffer :=
    if len data >? 32 then
      let h := Hash.New (Hash.sha1 sha1sum) in
      let (h, _) := Hash.Write h data in
      Hash.Sum h (Slice.make 2)
    else Slice.make 2 ++ data in
  let buffer := List.upd buffer 0 source in
  List.upd buffer 1 (byte.of_Z (len data)).

(** [func (a *accumulator) AddRandomEvent(source byte, data []byte)]:
    returns once the goroutine is started. *)
Definition AddRandomEvent (a : accumulator) (source : byte)
    (data : list byte) : accumulator :=
  {| numReseed := numReseed a;
     nextPool := nextPool a;
     lastReseed := lastReseed a;
     generator_ := generator_ a;
     pools := pools a;
     inflight := inflight a ++ [eventBuffer source data] |}.
End Events.

(** The body of the goroutine of the [k]-th buffer in flight, run under
    the lock. *)
Definition deliver (k : nat) (a : accumulator) : accumulator :=
  match nth_error (inflight a) k, nth_error (pools a) (Z.to_nat (nextPool a)) with
  | Some buffer, Some p =>
      let (p', _) := countedWrite p buffer in
      {| numReseed := numReseed a;
         nextPool := (nextPool a + 1) mod numPools;
         lastReseed := lastReseed a;
         generator_ := generator_ a;
         pools := List.upd (pools a) (Z.to_nat (nextPool a)) p';
         inflight := firstn k (inflight a) ++ skipn (S k) (inflight a) |}
  | _, _ => a
  end.

(** The goroutines that get the lock, in the order they get it. *)
Definition runGoroutines (sched : list nat) (a : accumulator) : accumulator :=
  fold_left (fun a k => deliver k a) sched a.

Section NewFortuna.
(** The digest functions of [crypto/sha256] and [crypto/sha1]. *)
Variable sha256sum sha1sum : list byte -> list byte.

(** The [for i := 1; i < numPools; i++] loop of [NewFortuna]: [n]
    iterations are left. *)
Fixpoint distribute (n : nat) (i : Z) (seed : list byte) (a : accumulator)
  : result accumulator :=
  match n with
  | O => Ok a
  | S n' =>
      let remaining := numPools - i in
      let perPool := (len seed + remaining - 1) / remaining in
      chunk <- Slice.to seed perPool ;;
      let a := AddRandomEvent sha1sum a (byte.of_Z i) chunk in
      seed <- Slice.from seed perPool ;;
      distribute n' (i + 1) seed a
  end.

(** [NewFortuna] from the creation of the accumulator up to the last
    [AddRandomEvent]. *)
Definition ingestSeed (seed : list byte) : result accumulator :=
  g <- newGenerator (Hash.sha256 sha256sum) None [] ;;
  let a := {| numReseed := 0;
              nextPool := 0;
              lastReseed := 0;
              generator_ := g;
              pools := repeat {| Hash_ := Hash.New (Hash.sha256 sha256sum);
                                 length_ := 0 |}
                              (Z.to_nat numPools);
              inflight := [] |} in
  let pool0 := Slice.make (Z.to_nat minPoolSize) in
  tail <- Slice.from pool0 16 ;;
  let pool0 := List.upds pool0 16 (Slice.copy tail seed) in
  let a := AddRandomEvent sha1sum a x00 pool0 in
  seed <- Slice.from seed (minPoolSize + 16) ;;
  distribute (Z.to_nat (numPools - 1)) 1 seed a.

(** [func NewFortuna(seed []byte) (Fortuna, error)]. [sched] names the
    goroutines that got the lock before the constructor took it for its
    reseed; [now] is [time.Now()]. *)
Definition NewFortuna (now : Time) (sched : list nat) (seed : list byte)
  : result (accumulator + error) :=
  if len seed <? 2 * minPoolSize then Ok (inr ErrSeedTooShort) else
  a <- ingestSeed seed ;;
  let a := runGoroutines sched a in
  a <- reseed a now ;;
  Ok (inl a).
End NewFortuna.
End Fortuna.

(* ===================================================================== *)
(** ** The specification's double hash, and instances to compute with *)
(* ===================================================================== *)

Module SpecText.
(** The five steps of the specification's [double_hash], on the handle
    operations: reset; write [block_size] zero bytes; write each segment
    in order; take the digest [d]; reset, write [d], take the digest. *)
Definition double_hash (h : Hash.t) (segments : list (list byte)) : list byte :=
  let h := Hash.Reset h in
  let h := fst (Hash.Write h (repeat x00 (Hash.BlockSize (Hash.alg h)))) in
  let h := fold_left (fun h seg => fst (Hash.Write h seg)) segments h in
  let d := Hash.Sum h [] in
  let h := Hash.Reset h in
  let h := fst (Hash.Write h d) in
  Hash.Sum h [].
End SpecText.

(* ===================================================================== *)
(** ** Vocabulary for the statements about the generator *)
(* ===================================================================== *)

Module GeneratorSpec.
Import Counter Generator.

(** The shape every generator built by [newGenerator] has and keeps. *)
Record wf (g : generator) : Prop := {
  wf_key : length (key g) = Hash.Size (Hash.alg (h g));
  wf_counter : length (counter g) = 16%nat;
  wf_temp : length (temp g) = Hash.Size (Hash.alg (h g));
  wf_max : maxBytesPerRequest g
           = 2 ^ 15 * Z.of_nat (Hash.Size (Hash.alg (h g)))
}.

(** The key lengths [aes.NewCipher] accepts. *)
Definition validKeySize (n : nat) : Prop :=
  n = 16%nat \/ n = 24%nat \/ n = 32%nat.

(** The number of counter blocks that cover [n] bytes. *)
Definition blocksFor (n : nat) : nat := ((n + 15) / 16)%nat.

(** [n] blocks of keystream under key [k], from counter [ctr] on. *)
Fixpoint keystream (E : AES.blockFn) (k : list byte) (n : nat)
    (ctr : Counter.counter) : list byte :=
  match n with
  | O => []
  | S n' => E k ctr ++ keystream E k n' (incr ctr)
  end.

(** The contract of [hash.Hash]: a digest has [Size()] bytes. *)
Definition lawful (a : Hash.algorithm) : Prop :=
  forall m, length (Hash.digest a m) = Hash.Size a.

(** The contract of [cipher.Block] for AES: a block has 16 bytes. *)
Definition blockLaw (E : AES.blockFn) : Prop :=
  forall k blk, length (E k blk) = 16%nat.

(** The generator [newGenerator] builds before it looks at the seed. *)
Definition fresh (h0 : Hash.t) : generator :=
  {| key := Slice.make (Hash.Size (Hash.alg h0));
     counter := Slice.make 16;
     maxBytesPerRequest :=
       wrapInt (Z.shiftl 1 15 * Z.of_nat (Hash.Size (Hash.alg h0)));
     initialized := false;
     temp := Slice.make (Hash.Size (Hash.alg h0));
     h := h0 |}.

(** [H(H(0^b || key || data))] for the hash of [g]. *)
Definition rekeyed (g : generator) (data : list byte) : list byte :=
  let H := Hash.digest (Hash.alg (h g)) in
  H (H (repeat x00 (Hash.BlockSize (Hash.alg (h g))) ++ key g ++ data)).

(** The generator a [Write] leaves. *)
Definition afterWrite (g : generator) (data : list byte) : generator :=
  let H := Hash.digest (Hash.alg (h g)) in
  {| key := rekeyed g data;
     counter := incr (counter g);
     maxBytesPerRequest := maxBytesPerRequest g;
     initialized := true;
     temp := temp g;
     h := {| Hash.alg := Hash.alg (h g);
             Hash.written :=
               H (repeat x00 (Hash.BlockSize (Hash.alg (h g)))
                    ++ key g ++ data) |} |}.

(** The generator [generateBlocks] leaves after filling [n] bytes: only
    the counter and the scratch block change. *)
Definition afterBlocks (E : AES.blockFn) (g : generator) (c : AES.cipher)
    (n : nat) : generator :=
  {| key := key g;
     counter := incrN (blocksFor n) (counter g);
     maxBytesPerRequest := maxBytesPerRequest g;
     initialized := initialized g;
     temp := if (n mod 16 =? 0)%nat then temp g
             else E (AES.cipherKey c) (incrN (n / 16) (counter g))
                    ++ skipn 16 (temp g);
     h := h g |}.

(** The generator a [Read] of [n] bytes leaves: [n] bytes of keystream
    went to the caller, the next [len(key)] bytes, under the same old
    key, are the new key. *)
Definition afterRead (E : AES.blockFn) (g : generator) (n : nat)
  : generator :=
  let c := {| AES.cipherKey := key g |} in
  let g1 := afterBlocks E g c n in
  let g2 := afterBlocks E g1 c (length (key g)) in
  {| key := firstn (length (key g))
              (keystream E (key g) (blocksFor (length (key g))) (counter g1));
     counter := counter g2;
     maxBytesPerRequest := maxBytesPerRequest g;
     initialized := initialized g;
     temp := temp g2;
     h := h g |}.
End GeneratorSpec.

Module Instances.
(** A checksum with the interface of a hash function, of any output and
    block size: byte [i] of the digest is the xor of the message bytes,
    plus the message length, plus [i]. *)
Definition checksum (m : list byte) : Z :=
  byte.unsigned (fold_right byte.xor x00 m) + len m.

Definition sumDigest (size : nat) (m : list byte) : list byte :=
  map (fun i => byte.of_Z (checksum m + Z.of_nat i)) (seq 0 size).

Definition sumHash (size blockSize : nat) : Hash.algorithm :=
  {| Hash.Size := size; Hash.BlockSize := blockSize;
     Hash.digest := sumDigest size |}.

(** A block function with the interface of AES: key xor block, byte by
    byte, over 16 bytes. *)
Definition xorBlock : AES.blockFn :=
  fun k blk =>
    map (fun i => byte.xor (nth i k x00) (nth i blk x00)) (seq 0 16).

(** [newGenerator(h, seed)] for a hash that cannot make it panic. *)
Definition seeded (a : Hash.algorithm) (seed : list byte) : Generator.generator :=
  match Generator.newGenerator a (Some (Hash.New a)) seed with
  | Ok g => g
  | Panic _ => GeneratorSpec.fresh (Hash.New a)
  end.

(** An accumulator after [n] reseeds, the byte [01] written to each of
    its pools. *)
Definition accAfter (n : Z) : Fortuna.accumulator :=
  let sha256 := Hash.sha256 (sumDigest 32) in
  {| Fortuna.numReseed := n;
     Fortuna.nextPool := 0;
     Fortuna.lastReseed := 0;
     Fortuna.generator_ := seeded sha256 [x00];
     Fortuna.pools :=
       repeat {| Fortuna.Hash_ :=
                   {| Hash.alg := sha256; Hash.written := [x01] |};
                 Fortuna.length_ := 1 |} 32;
     Fortuna.inflight := [] |}.

(** The seed of the tests: the bytes 00 to 7f. *)
Definition seed128 : list byte := map (fun i => byte.of_Z (Z.of_nat i)) (seq 0 128).
End Instances.

(* ===================================================================== *)
(** ** Vocabulary for the statements about the accumulator *)
(* ===================================================================== *)

Module FortunaSpec.
Import Fortuna.

(** How many pools a reseed takes when pools [0 .. i-1] are in already
    and [fuel] pools are left: pool [i] is taken while [2^i] divides [n]. *)
Fixpoint selectedFrom (fuel i : nat) (n : Z) : nat :=
  match fuel with
  | O => O
  | S f =>
      if n mod 2 ^ Z.of_nat i =? 0 then S (selectedFrom f (S i) n) else O
  end.

Definition selected (n : Z) : nat := selectedFrom (Z.to_nat numPools) 0 n.

(** The current digest of a pool. *)
Definition digestOf (p : countedHash) : list byte :=
  Hash.digest (Hash.alg (Hash_ p)) (Hash.written (Hash_ p)).

(** The shares of a seed over [n] pools: each pool in turn takes
    [ceil(remaining_bytes / remaining_pools)] bytes. *)
Fixpoint allot (n : nat) (seed : list byte) : list (list byte) :=
  match n with
  | O => []
  | S n' =>
      let k := ((length seed + n') / S n')%nat in
      firstn k seed :: allot n' (skipn k seed)
  end.

(** The calls [AddRandomEvent(byte(i), share)] for the pools [i], [i+1],
    ... as the buffers they put in flight. *)
Definition eventsFrom (sha1sum : list byte -> list byte) (i : nat)
    (shares : list (list byte)) : list (list byte) :=
  map (fun e => eventBuffer sha1sum (byte.of_Z (Z.of_nat (fst e))) (snd e))
      (combine (seq i (length shares)) shares).

(** An accumulator with more buffers in flight. *)
Definition withInflight (a : accumulator) (buffers : list (list byte))
  : accumulator :=
  {| numReseed := numReseed a;
     nextPool := nextPool a;
     lastReseed := lastReseed a;
     generator_ := generator_ a;
     pools := pools a;
     inflight := inflight a ++ buffers |}.

(** The accumulator [NewFortuna] starts from. *)
Definition emptyAcc (sha256sum : list byte -> list byte) : accumulator :=
  {| numReseed := 0;
     nextPool := 0;
     lastReseed := 0;
     generator_ := GeneratorSpec.fresh (Hash.New (Hash.sha256 sha256sum));
     pools := repeat {| Hash_ := Hash.New (Hash.sha256 sha256sum);
                        length_ := 0 |} 32;
     inflight := [] |}.

(** The shape every accumulator built by [NewFortuna] has and keeps:
    [pools] is an array of [numPools] hashes, [nextPool] indexes it, and
    the generator hashes with SHA-256, whose block size is 64. *)
Record wfAcc (a : accumulator) : Prop := {
  wf_pools : length (pools a) = Z.to_nat numPools;
  wf_nextPool : 0 <= nextPool a < numPools;
  wf_block :
    Hash.BlockSize (Hash.alg (Generator.h (generator_ a))) = 64%nat
}.
End FortunaSpec.

(* ===================================================================== *)
(** ** fortuna.go: prepare and Read *)
(* ===================================================================== *)

Module FortunaRead.
Import Generator Fortuna.

(** [reseedInterval = 100 * time.Millisecond], in nanoseconds. *)
Definition reseedInterval : Z := 100 * 1000000.

Section Clock.
(** [t.After(u)] and [t.Add(d)] of package [time]; [0] stands for the zero
    [time.Time{}]. *)
Variable After : Time -> Time -> bool.
Variable Add : Time -> Z -> Time.

(** [a.lastReseed = t] *)
Definition setLastReseed (a : accumulator) (t : Time) : accumulator :=
  {| numReseed := numReseed a;
     nextPool := nextPool a;
     lastReseed := t;
     generator_ := generator_ a;
     pools := pools a;
     inflight := inflight a |}.

(** [func (a *accumulator) prepare()], [now] being its [time.Now()]. *)
Definition prepare (a : accumulator) (now : Time) : result accumulator :=
  let a := if After (lastReseed a) now then setLastReseed a 0 else a in
  match nth_error (pools a) 0 with
  | Some p0 =>
      if (length_ p0 >=? minPoolSize)
         && After now (Add (lastReseed a) reseedInterval)
      then reseed a now
      else Ok a
  | None => Ok a
  end.

(** [func (a *accumulator) Read(data []byte) (int, error)]: the returned
    pair, the caller's buffer after the call, and the accumulator. *)
Definition Read (E : AES.blockFn) (a : accumulator) (now : Time)
    (data : list byte)
  : result ((Z * option error) * list byte * accumulator) :=
  a <- prepare a now ;;
  '(r, data', g') <- Generator.Read E (generator_ a) data ;;
  Ok (r, data',
      {| numReseed := numReseed a;
         nextPool := nextPool a;
         lastReseed := lastReseed a;
         generator_ := g';
         pools := pools a;
         inflight := inflight a |}).
End Clock.
End FortunaRead.

(* ===================================================================== *)
(** ** Vocabulary for the further properties *)
(* ===================================================================== *)

Module MoreSpec.
Import Counter Generator GeneratorSpec Fortuna FortunaSpec.

(** The generator states a program can get: built by [newGenerator], then
    written to and read from. *)
Inductive reachable (E : AES.blockFn) (sha256 : Hash.algorithm)
  : generator -> Prop :=
| reach_new h0 seed g :
    newGenerator sha256 h0 seed = Ok g -> reachable E sha256 g
| reach_write g data r g' :
    reachable E sha256 g -> Write g data = Ok (r, g') ->
    reachable E sha256 g'
| reach_read g data r data' g' :
    reachable E sha256 g -> Generator.Read E g data = Ok (r, data', g') ->
    reachable E sha256 g'.

(** The bytes a [Read] puts in a buffer of [n] zero bytes. *)
Definition output (E : AES.blockFn) (g : generator) (n : nat)
  : result (list byte) :=
  '(_, data', _) <- Generator.Read E g (Slice.make n) ;; Ok data'.

(** A schedule that only names goroutines that are in flight when their
    turn comes: [n] buffers are in flight at the start. *)
Fixpoint validSched (n : nat) (sched : list nat) : Prop :=
  match sched with
  | [] => True
  | k :: rest => (k < n)%nat /\ validSched (n - 1) rest
  end.

(** [length] counts the bytes written since the last reset. *)
Definition counted (p : countedHash) : Prop :=
  length_ p = len (Hash.written (Hash_ p)).

(** A pool that has received exactly [buffer] since its last reset. *)
Definition poolHolding (sha256sum : list byte -> list byte)
    (buffer : list byte) : countedHash :=
  {| Hash_ := {| Hash.alg := Hash.sha256 sha256sum; Hash.written := buffer |};
     length_ := len buffer |}.

(** The state the accumulators of [NewFortuna] stay in: 32 pools, a
    well-formed seeded generator that hashes with SHA-256. *)
Record ready (sha256sum : list byte -> list byte) (a : accumulator) : Prop := {
  ready_acc : wfAcc a;
  ready_gen : wf (generator_ a);
  ready_init : initialized (generator_ a) = true;
  ready_alg : Hash.alg (h (generator_ a)) = Hash.sha256 sha256sum
}.
End MoreSpec.

(* ===================================================================== *)
(** ** Properties of the counter *)
(* ===================================================================== *)

Module CounterFacts.
Import Counter.

Lemma value_cons b c : value (b :: c) = byte.unsigned b + 256 * value c.
Proof.
  unfold value.
  change (le_combine (b :: c))
    with (Z.lor (byte.unsigned b) (Z.shiftl (le_combine c) 8)).
  rewrite Z.or_to_plus.
  - rewrite Z.shiftl_mul_pow2 by lia. lia.
  - rewrite <- (byte.wrap_unsigned b). unfold byte.wrap.
    rewrite <- Z.land_ones by lia.
    apply Z.bits_inj'. intros n Hn.
    rewrite !Z.land_spec, Z.bits_0.
    destruct (Z.ltb_spec n 8).
    + rewrite Z.shiftl_spec_low by lia. now rewrite andb_false_r.
    + rewrite Z.ones_spec_high by lia. now rewrite andb_false_r.
Qed.

Lemma value_bound c : 0 <= value c < 256 ^ len c.
Proof.
  induction c as [| b c IH].
  - cbv. split; [discriminate | reflexivity].
  - rewrite value_cons. unfold len in *. cbn [length].
    rewrite Nat2Z.inj_succ, Z.pow_succ_r by lia.
    pose proof (byte.unsigned_range b) as Hb. change (2 ^ 8) with 256 in Hb.
    lia.
Qed.

Lemma byteIncr_unsigned b :
  byte.unsigned (byteIncr b) = (byte.unsigned b + 1) mod 256.
Proof. unfold byteIncr. now rewrite byte.unsigned_of_Z. Qed.

Lemma byteIncr_carry b :
  Byte.eqb (byteIncr b) x00 = true ->
  byte.unsigned b = 255 /\ byteIncr b = x00.
Proof.
  intros H. apply Strings.Byte.byte_dec_bl in H. split; [| exact H].
  pose proof (byteIncr_unsigned b) as Hu. rewrite H in Hu.
  pose proof (byte.unsigned_range b) as Hb. change (2 ^ 8) with 256 in Hb.
  change (byte.unsigned x00) with 0 in Hu.
  destruct (Z.eq_dec (byte.unsigned b) 255) as [-> | Hne]; [reflexivity |].
  rewrite Z.mod_small in Hu by lia. lia.
Qed.

Lemma byteIncr_nocarry b :
  Byte.eqb (byteIncr b) x00 = false ->
  byte.unsigned (byteIncr b) = byte.unsigned b + 1.
Proof.
  intros H. apply Strings.Byte.eqb_false in H.
  rewrite byteIncr_unsigned.
  pose proof (byte.unsigned_range b) as Hb. change (2 ^ 8) with 256 in Hb.
  destruct (Z.eq_dec (byte.unsigned b) 255) as [E | Hne].
  - exfalso. apply H. apply byte.unsigned_inj.
    rewrite byteIncr_unsigned, E. reflexivity.
  - apply Z.mod_small. lia.
Qed.

(** What the first loop of [incr] leaves: one more when it returned, and
    only zero bytes over an all-[0xff] counter when it ran to the end. *)
Lemma incrLoop_spec c :
  length (fst (incrLoop c)) = length c /\
  (snd (incrLoop c) = true -> value (fst (incrLoop c)) = value c + 1) /\
  (snd (incrLoop c) = false -> value c = 256 ^ len c - 1).
Proof.
  induction c as [| b c (IHlen & IHt & IHf)].
  - cbn. repeat split; intros; try discriminate; reflexivity.
  - cbn [incrLoop].
    destruct (Byte.eqb (byteIncr b) x00) eqn:Eb; cbn [negb].
    + destruct (incrLoop c) as [c' r] eqn:Ec. cbn [fst snd] in *.
      apply byteIncr_carry in Eb. destruct Eb as [Hb Hz].
      repeat split.
      * cbn [length]. now rewrite IHlen.
      * intros Hr. rewrite !value_cons, IHt, Hz, Hb by exact Hr.
        change (byte.unsigned x00) with 0. lia.
      * intros Hr. rewrite value_cons, IHf, Hb by exact Hr.
        unfold len. cbn [length]. rewrite Nat2Z.inj_succ, Z.pow_succ_r by lia.
        unfold len. lia.
    + cbn [fst snd]. repeat split.
      * intros _. rewrite !value_cons, byteIncr_nocarry by exact Eb. lia.
      * intros; discriminate.
Qed.

Lemma incr_length c : length (incr c) = length c.
Proof.
  unfold incr. pose proof (incrLoop_spec c) as (Hl & _).
  destruct (incrLoop c) as [c' r]. cbn [fst] in Hl.
  destruct r; [exact Hl | now rewrite length_map].
Qed.

Lemma value_all_zero (c : counter) : value (map (fun _ => x00) c) = 0.
Proof.
  induction c as [| b c IH]; [reflexivity |].
  cbn [map]. rewrite value_cons, IH. reflexivity.
Qed.

Lemma incr_value c : value (incr c) = (value c + 1) mod 256 ^ len c.
Proof.
  unfold incr. pose proof (incrLoop_spec c) as (Hl & Ht & Hf).
  pose proof (value_bound c) as Hb.
  destruct (incrLoop c) as [c' r]. cbn [fst snd] in *.
  destruct r.
  - specialize (Ht eq_refl). rewrite Ht.
    pose proof (value_bound c') as Hb'.
    unfold len in *. rewrite Hl in Hb'.
    symmetry. apply Z.mod_small. lia.
  - specialize (Hf eq_refl). rewrite value_all_zero, Hf.
    replace (256 ^ len c - 1 + 1) with (256 ^ len c) by lia.
    symmetry. apply Z.mod_same. unfold len. lia.
Qed.

Lemma incrN_length n c : length (incrN n c) = length c.
Proof.
  revert c. induction n as [| n IH]; intros c; [reflexivity |].
  cbn [incrN]. now rewrite IH, incr_length.
Qed.

Lemma incrN_value n c :
  value (incrN n c) = (value c + Z.of_nat n) mod 256 ^ len c.
Proof.
  revert c. induction n as [| n IH]; intros c.
  - cbn [incrN]. rewrite Z.add_0_r. symmetry. apply Z.mod_small, value_bound.
  - cbn [incrN]. rewrite IH, incr_value.
    unfold len. rewrite incr_length.
    rewrite Zplus_mod_idemp_l. f_equal. lia.
Qed.

(** C8. For every 16-byte counter [c], [incr] leaves 16 bytes whose
    little-endian value is [(c + 1) mod 2^128]: the carry goes from byte 0
    upward and the all-[0xff] counter wraps to all zero. The same holds at
    every length [n] with [2^(8n)], and the five vectors of the test table
    come out as listed. *)
Theorem C8_incr_little_endian :
  (forall c : counter, length c = 16%nat ->
     length (incr c) = 16%nat /\
     value (incr c) = (value c + 1) mod 2 ^ 128) /\
  (forall c : counter,
     length (incr c) = length c /\
     value (incr c) = (value c + 1) mod 2 ^ (8 * len c)) /\
  incr (repeat xff 16) = repeat x00 16 /\
  incr [x00] = [x01] /\
  incr [xff] = [x00] /\
  incr [xff; x00] = [x00; x01] /\
  incr [xff; xff] = [x00; x00] /\
  incr [xff; xff; x00] = [x00; x00; x01].
Proof.
  split; [| split].
  - intros c Hc. split; [now rewrite incr_length |].
    rewrite incr_value. unfold len. rewrite Hc. reflexivity.
  - intros c. split; [apply incr_length |].
    rewrite incr_value. f_equal.
    change 256 with (2 ^ 8). rewrite <- Z.pow_mul_r; unfold len; lia.
  - repeat split; vm_compute; reflexivity.
Qed.

(** The theorem at the counter [ff ff 00 .. 00]: the carry stops at
    byte 2. *)
Lemma C8_incr_little_endian_witness :
  length (incr (xff :: xff :: repeat x00 14)) = 16%nat /\
  value (incr (xff :: xff :: repeat x00 14))
    = (value (xff :: xff :: repeat x00 14) + 1) mod 2 ^ 128.
Proof.
  apply (proj1 C8_incr_little_endian (xff :: xff :: repeat x00 14)).
  reflexivity.
Defined.
End CounterFacts.

(* ===================================================================== *)
(** ** Properties of DoubleHash *)
(* ===================================================================== *)

Module DoubleHashFacts.

Lemma writeSegments_ok h data :
  writeSegments h data
  = Ok {| Hash.alg := Hash.alg h;
          Hash.written := Hash.written h ++ concat data |}.
Proof.
  revert h. induction data as [| i rest IH]; intros h.
  - cbn. rewrite app_nil_r. now destruct h.
  - cbn [writeSegments Hash.Write]. rewrite Z.eqb_refl. cbn [negb].
    rewrite IH. cbn [Hash.alg Hash.written concat].
    now rewrite app_assoc.
Qed.

Lemma zeros_to b :
  (b <= 256)%nat -> Slice.to zeros (Z.of_nat b) = Ok (repeat x00 b).
Proof.
  intros Hb. unfold Slice.to, zeros, len. rewrite repeat_length.
  replace (0 <=? Z.of_nat b) with true by (symmetry; apply Z.leb_le; lia).
  replace (Z.of_nat b <=? Z.of_nat 256) with true
    by (symmetry; apply Z.leb_le; lia).
  cbn [andb]. rewrite Nat2Z.id. f_equal.
  replace 256%nat with (b + (256 - b))%nat by lia.
  rewrite repeat_app, firstn_app, repeat_length, Nat.sub_diag.
  cbn [firstn]. rewrite app_nil_r.
  rewrite firstn_all2; [reflexivity | rewrite repeat_length; lia].
Qed.

Lemma zeros_to_panic b :
  (256 < b)%nat -> Slice.to zeros (Z.of_nat b) = Panic SliceBounds.
Proof.
  intros Hb. unfold Slice.to, zeros, len. rewrite repeat_length.
  replace (Z.of_nat b <=? Z.of_nat 256) with false
    by (symmetry; apply Z.leb_gt; lia).
  now rewrite andb_false_r.
Qed.

(** The digest [DoubleHash] returns and the state it leaves the handle
    in, when the block size fits [zeros]. *)
Lemma DoubleHash_ok h data :
  (Hash.BlockSize (Hash.alg h) <= 256)%nat ->
  let H := Hash.digest (Hash.alg h) in
  let d := H (repeat x00 (Hash.BlockSize (Hash.alg h)) ++ concat data) in
  DoubleHash h data
  = Ok (H d, {| Hash.alg := Hash.alg h; Hash.written := d |}).
Proof.
  intros Hb H d. unfold DoubleHash. cbn [Hash.Reset Hash.alg].
  rewrite zeros_to by exact Hb. cbn [bind Hash.Write Hash.written app].
  unfold len at 1. rewrite repeat_length, Z.eqb_refl. cbn [negb].
  rewrite writeSegments_ok. cbn [bind Hash.alg Hash.written Hash.Sum app].
  rewrite Z.eqb_refl. reflexivity.
Qed.

Lemma DoubleHash_panic h data :
  (256 < Hash.BlockSize (Hash.alg h))%nat ->
  DoubleHash h data = Panic SliceBounds.
Proof.
  intros Hb. unfold DoubleHash. cbn [Hash.Reset Hash.alg].
  now rewrite zeros_to_panic by exact Hb.
Qed.

Lemma spec_double_hash_eq h segments :
  let H := Hash.digest (Hash.alg h) in
  SpecText.double_hash h segments
  = H (H (repeat x00 (Hash.BlockSize (Hash.alg h)) ++ concat segments)).
Proof.
  intros H. unfold SpecText.double_hash.
  cbn [Hash.Reset Hash.Write Hash.alg Hash.written fst app].
  assert (Hfold : forall segs h0,
    fold_left (fun h1 seg => fst (Hash.Write h1 seg)) segs h0
    = {| Hash.alg := Hash.alg h0;
         Hash.written := Hash.written h0 ++ concat segs |}).
  { induction segs as [| s segs IH]; intros h0.
    - cbn. rewrite app_nil_r. now destruct h0.
    - cbn [fold_left Hash.Write fst]. rewrite IH.
      cbn [Hash.alg Hash.written concat]. now rewrite app_assoc. }
  rewrite Hfold. reflexivity.
Qed.

(** C6, as the code has it. For every hash handle [h] whose block size is
    at most 256 (the length of [zeros]) and every sequence of segments,
    [DoubleHash] returns the digest of the specification's five steps,
    which is [H(H(0^b || m))] with [b] the block size and [m] the
    concatenation of the segments, whatever state [h] was in. *)
Theorem C6_DoubleHash_is_H_H_zero_block h segments :
  (Hash.BlockSize (Hash.alg h) <= 256)%nat ->
  let H := Hash.digest (Hash.alg h) in
  (exists h', DoubleHash h segments = Ok (SpecText.double_hash h segments, h')) /\
  SpecText.double_hash h segments
  = H (H (repeat x00 (Hash.BlockSize (Hash.alg h)) ++ concat segments)).
Proof.
  intros Hb H. split; [| apply spec_double_hash_eq].
  eexists. rewrite DoubleHash_ok by exact Hb.
  now rewrite spec_double_hash_eq.
Qed.

Lemma C6_DoubleHash_is_H_H_zero_block_witness :
  let h := Hash.New (Instances.sumHash 32 64) in
  let H := Hash.digest (Hash.alg h) in
  (exists h', DoubleHash h [[x01; x02]; [x03]]
              = Ok (SpecText.double_hash h [[x01; x02]; [x03]], h')) /\
  SpecText.double_hash h [[x01; x02]; [x03]]
  = H (H (repeat x00 (Hash.BlockSize (Hash.alg h)) ++ concat [[x01; x02]; [x03]])).
Proof.
  apply (C6_DoubleHash_is_H_H_zero_block
           (Hash.New (Instances.sumHash 32 64)) [[x01; x02]; [x03]]).
  cbn. lia.
Defined.

(** C6 as stated fails: on a handle whose block size is 257, [zeros[:b]]
    is out of range and [DoubleHash] panics instead of returning the
    digest of the five steps. *)
Lemma C6_counterexample_block_size_257 :
  let h := Hash.New (Instances.sumHash 32 257) in
  DoubleHash h [[x01]] = Panic SliceBounds /\
  forall h', DoubleHash h [[x01]] <> Ok (SpecText.double_hash h [[x01]], h').
Proof.
  assert (E : DoubleHash (Hash.New (Instances.sumHash 32 257)) [[x01]]
              = Panic SliceBounds).
  { apply DoubleHash_panic. cbn. lia. }
  cbv zeta. split; [exact E |].
  intros h'. rewrite E. discriminate.
Qed.
End DoubleHashFacts.

(* ===================================================================== *)
(** ** Properties of the generator *)
(* ===================================================================== *)

Module GeneratorFacts.
Import Counter Generator GeneratorSpec CounterFacts.

Lemma len_nonneg {A} (l : list A) : 0 <= len l.
Proof. unfold len. lia. Qed.

Lemma slice_from_app {A} (pre rest : list A) :
  Slice.from (pre ++ rest) (len pre) = Ok rest.
Proof.
  unfold Slice.from, len. rewrite length_app.
  replace (0 <=? Z.of_nat (length pre)) with true
    by (symmetry; apply Z.leb_le; lia).
  replace (Z.of_nat (length pre) <=? Z.of_nat (length pre + length rest))
    with true by (symmetry; apply Z.leb_le; lia).
  cbn [andb]. rewrite Nat2Z.id, skipn_app, Nat.sub_diag, skipn_all.
  reflexivity.
Qed.

Lemma slice_to_app {A} (blk rest : list A) :
  Slice.to (blk ++ rest) (len blk) = Ok blk.
Proof.
  unfold Slice.to, len. rewrite length_app.
  replace (0 <=? Z.of_nat (length blk)) with true
    by (symmetry; apply Z.leb_le; lia).
  replace (Z.of_nat (length blk) <=? Z.of_nat (length blk + length rest))
    with true by (symmetry; apply Z.leb_le; lia).
  cbn [andb]. rewrite Nat2Z.id, firstn_app, Nat.sub_diag, firstn_all.
  cbn [firstn]. now rewrite app_nil_r.
Qed.

Lemma upds_middle {A} (pre old rest new : list A) :
  length new = length old ->
  List.upds (pre ++ old ++ rest) (length pre) new = pre ++ new ++ rest.
Proof.
  intros Hn. unfold List.upds.
  rewrite firstn_app, Nat.sub_diag, firstn_all. cbn [firstn].
  rewrite app_nil_r. f_equal.
  rewrite !length_app.
  rewrite firstn_all2 by lia. f_equal.
  rewrite skipn_app.
  replace (length new + length pre - length pre)%nat with (length old) by lia.
  rewrite skipn_all2 by lia. cbn [app].
  rewrite skipn_app, Nat.sub_diag, skipn_all. reflexivity.
Qed.

Section WithAES.
Variable E : AES.blockFn.
Hypothesis E_length : forall k blk, length (E k blk) = 16%nat.

Lemma keystream_length k n ctr :
  length (keystream E k n ctr) = (16 * n)%nat.
Proof.
  revert ctr. induction n as [| n IH]; intros ctr; [reflexivity |].
  cbn [keystream]. rewrite length_app, E_length, IH. lia.
Qed.

Lemma keystream_snoc k n ctr :
  keystream E k (S n) ctr
  = keystream E k n ctr ++ E k (incrN n ctr).
Proof.
  revert ctr. induction n as [| n IH]; intros ctr.
  - cbn. now rewrite app_nil_r.
  - change (keystream E k (S (S n)) ctr)
      with (E k ctr ++ keystream E k (S n) (incr ctr)).
    rewrite IH. cbn [keystream incrN]. now rewrite app_assoc.
Qed.

Lemma Encrypt_block c dst ctr :
  length ctr = 16%nat -> (16 <= length dst)%nat ->
  AES.Encrypt E c dst ctr
  = Ok (E (AES.cipherKey c) ctr ++ skipn 16 dst).
Proof.
  intros Hc Hd. unfold AES.Encrypt, AES.BlockSize, len.
  replace (Z.of_nat (length ctr) <? 16) with false
    by (symmetry; apply Z.ltb_ge; lia).
  replace (Z.of_nat (length dst) <? 16) with false
    by (symmetry; apply Z.ltb_ge; lia).
  rewrite firstn_all2 by lia.
  rewrite List.upds_0_skipn by (rewrite E_length; lia).
  now rewrite E_length.
Qed.

(** The loop over the full blocks writes the keystream over the part
    of [out] it covers and steps the counter once per block. *)
Lemma fullBlocksLoop_ok c n : forall i pre mid post ctr,
  len pre = i * 16 ->
  length ctr = 16%nat ->
  length mid = (16 * n)%nat ->
  fullBlocksLoop E n i c 16 ctr (pre ++ mid ++ post)
  = Ok (incrN n ctr,
        pre ++ keystream E (AES.cipherKey c) n ctr ++ post).
Proof.
  induction n as [| n IH]; intros i pre mid post ctr Hpre Hctr Hmid.
  - destruct mid; [reflexivity | discriminate].
  - rewrite <- (firstn_skipn 16 mid).
    set (blk := firstn 16 mid). set (mid' := skipn 16 mid).
    assert (Hblk : length blk = 16%nat)
      by (subst blk; rewrite length_firstn; lia).
    assert (Hmid' : length mid' = (16 * n)%nat)
      by (subst mid'; rewrite length_skipn; lia).
    cbn [fullBlocksLoop]. rewrite <- Hpre, <- app_assoc.
    rewrite slice_from_app. cbn [bind].
    replace 16 with (len blk) at 1 by (unfold len; lia).
    rewrite slice_to_app. cbn [bind].
    rewrite Encrypt_block by lia. cbn [bind].
    rewrite skipn_all2, app_nil_r by lia.
    unfold len at 1. rewrite Nat2Z.id.
    rewrite upds_middle by (rewrite E_length; lia).
    rewrite (app_assoc pre).
    rewrite IH; [| | now rewrite incr_length | exact Hmid'].
    + cbn [incrN keystream]. now rewrite <- !app_assoc.
    + unfold len in *. rewrite length_app, E_length. lia.
Qed.

Lemma blocksFor_exact full : blocksFor (16 * full + 0) = full.
Proof.
  unfold blocksFor.
  replace (16 * full + 0 + 15)%nat with (15 + full * 16)%nat by lia.
  now rewrite Nat.div_add by lia.
Qed.

Lemma blocksFor_partial full r :
  (0 < r < 16)%nat -> blocksFor (16 * full + r) = S full.
Proof.
  intros Hr. unfold blocksFor.
  replace (16 * full + r + 15)%nat with ((r + 15) + full * 16)%nat by lia.
  rewrite Nat.div_add by lia.
  replace ((r + 15) / 16)%nat with 1%nat; [lia |].
  apply Nat.div_unique with (r := (r - 1)%nat); lia.
Qed.

(** [generateBlocks] fills [out] with the next bytes of keystream and
    steps the counter once per block it encrypted, the partial one
    included. *)
Lemma generateBlocks_ok g c out :
  length (counter g) = 16%nat ->
  (16 <= length (temp g))%nat ->
  generateBlocks E g c out
  = Ok (afterBlocks E g c (length out),
        firstn (length out)
          (keystream E (AES.cipherKey c) (blocksFor (length out))
             (counter g))).
Proof.
  intros Hctr Htemp.
  set (full := (length out / 16)%nat).
  set (r := (length out mod 16)%nat).
  assert (Hlen : length out = (16 * full + r)%nat)
    by (subst full r; apply Nat.div_mod_eq).
  assert (Hr : (r < 16)%nat) by (subst r; apply Nat.mod_upper_bound; lia).
  assert (Hfull : len out / 16 = Z.of_nat full).
  { unfold len. subst full. now rewrite Nat2Z.inj_div. }
  assert (Hmod : len out mod 16 = Z.of_nat r).
  { unfold len. subst r. now rewrite Nat2Z.inj_mod. }
  unfold generateBlocks, afterBlocks. cbv zeta. unfold AES.BlockSize.
  rewrite Hfull, Nat2Z.id.
  pose proof (fullBlocksLoop_ok c full 0 [] (firstn (16 * full) out)
                (skipn (16 * full) out) (counter g)) as Hloop.
  cbn [app] in Hloop. rewrite firstn_skipn in Hloop. rewrite Hloop;
    [| reflexivity | exact Hctr | rewrite length_firstn; lia].
  cbn [bind].
  assert (Htail : length (skipn (16 * full) out) = r)
    by (rewrite length_skipn; lia).
  set (ks := keystream E (AES.cipherKey c) full (counter g)).
  assert (Hks : length ks = (16 * full)%nat) by apply keystream_length.
  replace (len (ks ++ skipn (16 * full) out)) with (len out)
    by (unfold len; rewrite length_app; lia).
  rewrite Hmod. fold r. fold full.
  destruct (Nat.eq_dec r 0) as [Hr0 | Hr0].
  - (* no partial block *)
    rewrite Hr0. cbn [Z.of_nat Z.eqb negb Nat.eqb].
    rewrite Hlen, Hr0, blocksFor_exact. fold ks.
    do 2 f_equal.
    rewrite firstn_all2 by lia.
    rewrite (skipn_all2 out) by lia. now rewrite app_nil_r.
  - (* one more block, through [temp] *)
    replace (Z.of_nat r =? 0) with false by (symmetry; apply Z.eqb_neq; lia).
    replace (r =? 0)%nat with false by (symmetry; apply Nat.eqb_neq; lia).
    cbn [negb].
    assert (Hctr' : length (incrN full (counter g)) = 16%nat)
      by now rewrite incrN_length.
    rewrite Encrypt_block by assumption. cbn [bind].
    replace (Z.of_nat full * 16) with (len ks) by (unfold len; lia).
    rewrite slice_from_app. cbn [bind].
    rewrite Hlen. rewrite blocksFor_partial by lia.
    change (incrN (S full) (counter g))
      with (incrN full (incr (counter g))).
    replace (incr (incrN full (counter g)))
      with (incrN full (incr (counter g))).
    2:{ clear. generalize (counter g). induction full as [| n IH];
          intros c0; [reflexivity | cbn [incrN]; apply IH]. }
    do 2 f_equal.
    rewrite keystream_snoc. fold ks.
    unfold len. rewrite Nat2Z.id.
    rewrite <- (app_nil_r (skipn (16 * full) out)) at 1.
    rewrite <- Hks at 1.
    rewrite upds_middle.
    + rewrite app_nil_r. rewrite firstn_app.
      rewrite firstn_all2 by lia. f_equal.
      replace (16 * full + r - length ks)%nat with r by lia.
      unfold Slice.copy, List.upds. cbn [firstn app].
      rewrite Nat.sub_0_r, Htail, Nat.add_0_r.
      rewrite (skipn_all2 (skipn (16 * full) out))
        by (rewrite length_app, E_length; lia).
      rewrite app_nil_r. rewrite firstn_app, E_length.
      replace (r - 16)%nat with 0%nat by lia. cbn [firstn].
      now rewrite app_nil_r.
    + unfold Slice.copy. rewrite List.upds_length, Hks. reflexivity.
Qed.

Lemma blocksFor_covers n : (n <= 16 * blocksFor n)%nat.
Proof.
  unfold blocksFor.
  pose proof (Nat.div_mod_eq (n + 15) 16) as Hd.
  pose proof (Nat.mod_upper_bound (n + 15) 16) as Hm. lia.
Qed.

Lemma afterBlocks_temp_length g c n :
  (16 <= length (temp g))%nat ->
  length (temp (afterBlocks E g c n)) = length (temp g).
Proof.
  intros Ht. cbn [afterBlocks temp].
  destruct (n mod 16 =? 0)%nat; [reflexivity |].
  rewrite length_app, E_length, length_skipn. lia.
Qed.

Lemma NewCipher_valid k :
  validKeySize (length k) ->
  AES.NewCipher k = Some {| AES.cipherKey := k |}.
Proof.
  unfold AES.NewCipher, len.
  intros [-> | [-> | ->]]; reflexivity.
Qed.

Lemma NewCipher_invalid k :
  ~ validKeySize (length k) -> AES.NewCipher k = None.
Proof.
  unfold AES.NewCipher, validKeySize, len. intros Hk.
  destruct (Z.eqb_spec (Z.of_nat (length k)) 16); [exfalso; lia |].
  destruct (Z.eqb_spec (Z.of_nat (length k)) 24); [exfalso; lia |].
  destruct (Z.eqb_spec (Z.of_nat (length k)) 32); [exfalso; lia |].
  reflexivity.
Qed.

(** The part of its buffer a [Read] fills. *)
Lemma Read_view g (data : list byte) :
  0 <= maxBytesPerRequest g ->
  (if len data >? maxBytesPerRequest g
   then Slice.to data (maxBytesPerRequest g) else Ok data)
  = Ok (firstn (Nat.min (length data) (Z.to_nat (maxBytesPerRequest g)))
          data).
Proof.
  intros Hmax. unfold len.
  destruct (Z.gtb_spec (Z.of_nat (length data)) (maxBytesPerRequest g))
    as [Hgt | Hle].
  - unfold Slice.to, len.
    replace (0 <=? maxBytesPerRequest g) with true
      by (symmetry; apply Z.leb_le; lia).
    replace (maxBytesPerRequest g <=? Z.of_nat (length data)) with true
      by (symmetry; apply Z.leb_le; lia).
    cbn [andb]. do 2 f_equal. lia.
  - f_equal. symmetry. apply firstn_all2. lia.
Qed.

(** A [Read] on a seeded generator with an AES key length. *)
Lemma Read_ok g data :
  wf g -> initialized g = true ->
  validKeySize (Hash.Size (Hash.alg (h g))) ->
  let n := Nat.min (length data) (Z.to_nat (maxBytesPerRequest g)) in
  Read E g data
  = Ok ((Z.of_nat n, None),
        firstn n (keystream E (key g) (blocksFor n) (counter g))
          ++ skipn n data,
        afterRead E g n).
Proof.
  intros [Hkey Hctr Htemp Hmax] Hinit Hvalid n.
  assert (Hsize : (16 <= Hash.Size (Hash.alg (h g)))%nat)
    by (destruct Hvalid as [-> | [-> | ->]]; lia).
  unfold Read. rewrite Hinit. cbn [negb].
  rewrite Read_view by lia. fold n. cbn [bind].
  rewrite NewCipher_valid by (rewrite Hkey; exact Hvalid).
  set (c := {| AES.cipherKey := key g |}).
  assert (Hview : length (firstn n data) = n)
    by (rewrite length_firstn; lia).
  rewrite generateBlocks_ok by lia. cbn [bind].
  rewrite Hview.
  rewrite generateBlocks_ok;
    [| cbn [afterBlocks counter]; now rewrite incrN_length
     | rewrite afterBlocks_temp_length; lia].
  cbn [bind]. unfold len. rewrite Hview.
  f_equal. f_equal. f_equal.
  unfold Slice.copy.
  pose proof (blocksFor_covers n) as Hcov.
  assert (Hout : length (firstn n (keystream E (key g) (blocksFor n) (counter g))) = n).
  { rewrite length_firstn, keystream_length. lia. }
  change (AES.cipherKey c) with (key g).
  rewrite List.upds_0_skipn by (rewrite Hout; lia).
  now rewrite Hout.
Qed.

Lemma afterRead_wf g n :
  wf g -> validKeySize (Hash.Size (Hash.alg (h g))) ->
  wf (afterRead E g n).
Proof.
  intros [Hkey Hctr Htemp Hmax] Hvalid.
  assert (Hsize : (16 <= Hash.Size (Hash.alg (h g)))%nat)
    by (destruct Hvalid as [-> | [-> | ->]]; lia).
  constructor; cbn [afterRead key counter temp maxBytesPerRequest h].
  - rewrite length_firstn, keystream_length.
    pose proof (blocksFor_covers (length (key g))). lia.
  - cbn [afterBlocks counter]. now rewrite !incrN_length.
  - rewrite !afterBlocks_temp_length; [exact Htemp | lia |].
    rewrite afterBlocks_temp_length; lia.
  - exact Hmax.
Qed.
End WithAES.

(** *** Write and newGenerator *)

Lemma Write_ok g data :
  (Hash.BlockSize (Hash.alg (h g)) <= 256)%nat ->
  Write g data = Ok ((len data, None), afterWrite g data).
Proof.
  intros Hb. unfold Write.
  rewrite DoubleHashFacts.DoubleHash_ok by exact Hb.
  cbn [bind concat]. now rewrite app_nil_r.
Qed.

Lemma Write_panic g data :
  (256 < Hash.BlockSize (Hash.alg (h g)))%nat ->
  Write g data = Panic SliceBounds.
Proof.
  intros Hb. unfold Write.
  now rewrite DoubleHashFacts.DoubleHash_panic by exact Hb.
Qed.

Lemma wrapInt_small z :
  - 2 ^ 63 <= z < 2 ^ 63 -> wrapInt z = z.
Proof.
  intros Hz. unfold wrapInt, intBits.
  change (64 - 1) with 63. rewrite Z.mod_small; lia.
Qed.

Lemma fresh_wf h0 :
  Z.of_nat (Hash.Size (Hash.alg h0)) < 2 ^ 48 -> wf (fresh h0).
Proof.
  intros Hs. constructor; cbn [fresh key counter temp maxBytesPerRequest h].
  - apply repeat_length.
  - reflexivity.
  - apply repeat_length.
  - change (Z.shiftl 1 15) with (2 ^ 15). apply wrapInt_small. lia.
Qed.

Lemma afterWrite_wf g data :
  lawful (Hash.alg (h g)) -> wf g -> wf (afterWrite g data).
Proof.
  intros Hlaw [Hkey Hctr Htemp Hmax].
  constructor;
    cbn [afterWrite key counter temp maxBytesPerRequest h Hash.alg].
  - apply Hlaw.
  - now rewrite incr_length.
  - exact Htemp.
  - exact Hmax.
Qed.

Lemma len_zero_iff {A} (l : list A) : (len l =? 0) = true <-> l = [].
Proof.
  unfold len. rewrite Z.eqb_eq. destruct l; cbn [length]; split;
    intros; try reflexivity; try discriminate; lia.
Qed.

Lemma newGenerator_empty sha256 h0 :
  newGenerator sha256 h0 []
  = Ok (fresh (match h0 with None => Hash.New sha256 | Some h1 => h1 end)).
Proof. reflexivity. Qed.

Lemma newGenerator_seed sha256 h0 seed :
  seed <> [] ->
  newGenerator sha256 h0 seed
  = ('(_, g') <-
       Write (fresh (match h0 with None => Hash.New sha256 | Some h1 => h1 end))
         seed ;;
     Ok g').
Proof.
  intros Hs. unfold newGenerator.
  destruct (len seed =? 0) eqn:El; [| reflexivity].
  apply len_zero_iff in El. contradiction.
Qed.

(** *** Runs of Read *)

Lemma readAll_ok E g sizes :
  blockLaw E -> wf g -> initialized g = true ->
  validKeySize (Hash.Size (Hash.alg (h g))) ->
  exists outs,
    readAll E g sizes = Ok outs /\
    map (fun o => fst (fst o)) outs
    = map (fun n => Z.min (Z.of_nat n) (maxBytesPerRequest g)) sizes /\
    map (fun o => length (snd o)) outs = sizes.
Proof.
  intros HE. revert g.
  induction sizes as [| n rest IH]; intros g Hwf Hinit Hvalid.
  - exists []. repeat split.
  - cbn [readAll].
    rewrite (Read_ok E HE) by assumption. cbn [bind].
    set (m := Nat.min (length (Slice.make n)) (Z.to_nat (maxBytesPerRequest g))).
    destruct (IH (afterRead E g m)) as (outs & Hrun & Hns & Hls).
    + now apply afterRead_wf.
    + exact Hinit.
    + exact Hvalid.
    + rewrite Hrun. cbn [bind]. eexists. split; [reflexivity |].
      cbn [map fst snd]. rewrite Hns, Hls. cbn [afterRead maxBytesPerRequest].
      pose proof (wf_max g Hwf) as Hmax.
      assert (Hm : length (Slice.make n) = n) by apply repeat_length.
      split; f_equal.
      * subst m. rewrite Hm. lia.
      * rewrite length_app, length_firstn, length_skipn.
        rewrite (keystream_length E HE).
        pose proof (blocksFor_covers m). subst m. rewrite Hm in *. lia.
Qed.

(** *** The claims about the generator *)

(** C7. On a generator on which no [Write] has occurred ([initialized]
    is false, as [newGenerator] leaves it without a seed), [Read] returns
    0 and the error "Generator is not seeded", and leaves the buffer and
    the whole generator state as they were. *)
Theorem C7_Read_not_seeded E g data :
  initialized g = false ->
  Read E g data = Ok ((0, Some ErrNotSeeded), data, g).
Proof. intros Hinit. unfold Read. now rewrite Hinit. Qed.

Lemma C7_Read_not_seeded_witness :
  let g := GeneratorSpec.fresh (Hash.New (Instances.sumHash 32 64)) in
  newGenerator (Instances.sumHash 32 64) None [] = Ok g /\
  Read Instances.xorBlock g [x01; x02; x03]
  = Ok ((0, Some ErrNotSeeded), [x01; x02; x03], g).
Proof.
  split; [reflexivity |].
  apply (C7_Read_not_seeded Instances.xorBlock
           (GeneratorSpec.fresh (Hash.New (Instances.sumHash 32 64)))
           [x01; x02; x03]).
  reflexivity.
Defined.
End GeneratorFacts.

(* ===================================================================== *)
(** ** The claims about Write, Read and seeding *)
(* ===================================================================== *)

Module GeneratorClaims.
Import Counter Generator GeneratorSpec CounterFacts GeneratorFacts.

(** C5, as the code has it. For every generator state whose hash has a
    block size of at most 256 and every input, [Write] returns [len(data)]
    and no error; it replaces the key with the double hash of the old key
    followed by the data, steps the counter once whether or not the
    generator had been written to before, and sets [initialized]. *)
Theorem C5_Write_rekeys_and_steps g data :
  (Hash.BlockSize (Hash.alg (h g)) <= 256)%nat ->
  exists g',
    Write g data = Ok ((len data, None), g') /\
    (exists h', DoubleHash (h g) [key g; data] = Ok (key g', h')) /\
    key g' = SpecText.double_hash (h g) [key g; data] /\
    counter g' = incr (counter g) /\
    (length (counter g) = 16%nat ->
       value (counter g') = (value (counter g) + 1) mod 2 ^ 128) /\
    initialized g' = true /\
    maxBytesPerRequest g' = maxBytesPerRequest g /\
    temp g' = temp g.
Proof.
  intros Hb. exists (afterWrite g data).
  split; [now apply Write_ok |].
  split; [eexists; rewrite DoubleHashFacts.DoubleHash_ok by exact Hb;
          cbn [concat]; rewrite app_nil_r; reflexivity |].
  split.
  { rewrite DoubleHashFacts.spec_double_hash_eq. cbn [concat].
    now rewrite app_nil_r. }
  split; [reflexivity |].
  split; [| repeat split].
  intros Hc. cbn [afterWrite counter]. rewrite incr_value.
  unfold len. now rewrite Hc.
Qed.

Lemma C5_Write_rekeys_and_steps_witness :
  let g := fresh (Hash.New (Instances.sumHash 32 64)) in
  exists g',
    Write g [x2a] = Ok ((len [x2a], None), g') /\
    (exists h', DoubleHash (h g) [key g; [x2a]] = Ok (key g', h')) /\
    key g' = SpecText.double_hash (h g) [key g; [x2a]] /\
    counter g' = incr (counter g) /\
    (length (counter g) = 16%nat ->
       value (counter g') = (value (counter g) + 1) mod 2 ^ 128) /\
    initialized g' = true /\
    maxBytesPerRequest g' = maxBytesPerRequest g /\
    temp g' = temp g.
Proof.
  apply (C5_Write_rekeys_and_steps
           (fresh (Hash.New (Instances.sumHash 32 64))) [x2a]).
  cbn. lia.
Defined.

(** C5 as stated fails: with a hash whose block size is 257, [Write]
    panics in [DoubleHash] and returns nothing. *)
Lemma C5_counterexample_block_size_257 :
  Write (fresh (Hash.New (Instances.sumHash 32 257))) [x2a]
  = Panic SliceBounds.
Proof. apply Write_panic. cbn. lia. Qed.

(** C3, as the code has it. For every seeded generator whose hash output
    size is a key length of AES (16, 24 or 32 bytes) and every buffer, one
    [Read] returns [min(len(buf), maxBytesPerRequest)] and no error, and
    has written that many bytes of keystream at the front of the buffer;
    [maxBytesPerRequest] is [2^15] times the output size: [2^20] for a
    32-byte hash, [2^19] for a 16-byte one. *)
Theorem C3_Read_length E g data :
  blockLaw E -> wf g -> initialized g = true ->
  validKeySize (Hash.Size (Hash.alg (h g))) ->
  exists data' g',
    Read E g data
    = Ok ((Z.min (len data) (maxBytesPerRequest g), None), data', g') /\
    length data' = length data /\
    (let n := Z.to_nat (Z.min (len data) (maxBytesPerRequest g)) in
     firstn n data' = firstn n (keystream E (key g) (blocksFor n) (counter g)) /\
     skipn n data' = skipn n data) /\
    maxBytesPerRequest g = 2 ^ 15 * Z.of_nat (Hash.Size (Hash.alg (h g))) /\
    (Hash.Size (Hash.alg (h g)) = 32%nat -> maxBytesPerRequest g = 2 ^ 20) /\
    (Hash.Size (Hash.alg (h g)) = 16%nat -> maxBytesPerRequest g = 2 ^ 19).
Proof.
  intros HE Hwf Hinit Hvalid.
  pose proof (wf_max g Hwf) as Hmax.
  set (n := Nat.min (length data) (Z.to_nat (maxBytesPerRequest g))).
  assert (Hn : Z.min (len data) (maxBytesPerRequest g) = Z.of_nat n)
    by (unfold len; subst n; lia).
  exists (firstn n (keystream E (key g) (blocksFor n) (counter g))
            ++ skipn n data), (afterRead E g n).
  rewrite Hn, Nat2Z.id.
  assert (Hks : length (firstn n (keystream E (key g) (blocksFor n) (counter g))) = n).
  { rewrite length_firstn, (keystream_length E HE).
    pose proof (blocksFor_covers n). lia. }
  split; [now apply Read_ok |].
  split; [rewrite length_app, Hks, length_skipn; subst n; lia |].
  split.
  { cbv zeta. split.
    - rewrite firstn_app, Hks, Nat.sub_diag. cbn [firstn].
      rewrite app_nil_r. now rewrite firstn_firstn, Nat.min_id.
    - rewrite skipn_app, Hks, Nat.sub_diag. cbn [skipn].
      now rewrite skipn_all2 by lia. }
  split; [exact Hmax |].
  split; intros Hs; rewrite Hmax, Hs; reflexivity.
Qed.

Lemma xorBlock_law : blockLaw Instances.xorBlock.
Proof.
  intros k blk. unfold Instances.xorBlock.
  now rewrite length_map, length_seq.
Qed.

Lemma sumHash_lawful size blockSize :
  lawful (Instances.sumHash size blockSize).
Proof.
  intros m. cbn. unfold Instances.sumDigest.
  now rewrite length_map, length_seq.
Qed.

Lemma seeded_eq a seed :
  (Hash.BlockSize a <= 256)%nat -> seed <> [] ->
  Instances.seeded a seed = afterWrite (fresh (Hash.New a)) seed.
Proof.
  intros Hb Hs. unfold Instances.seeded.
  rewrite newGenerator_seed by exact Hs.
  now rewrite Write_ok by exact Hb.
Qed.

Lemma seeded_wf a seed :
  lawful a -> (Hash.BlockSize a <= 256)%nat ->
  Z.of_nat (Hash.Size a) < 2 ^ 48 -> seed <> [] ->
  wf (Instances.seeded a seed) /\
  initialized (Instances.seeded a seed) = true /\
  Hash.alg (h (Instances.seeded a seed)) = a.
Proof.
  intros Hlaw Hb Hsz Hs. rewrite seeded_eq by assumption.
  split; [| split; reflexivity].
  apply afterWrite_wf; [exact Hlaw | now apply fresh_wf].
Qed.

Lemma C3_Read_length_witness :
  let g := Instances.seeded (Instances.sumHash 32 64) [x00] in
  let data := Slice.make 20 in
  exists data' g',
    Read Instances.xorBlock g data
    = Ok ((Z.min (len data) (maxBytesPerRequest g), None), data', g') /\
    length data' = length data /\
    (let n := Z.to_nat (Z.min (len data) (maxBytesPerRequest g)) in
     firstn n data'
     = firstn n (keystream Instances.xorBlock (key g) (blocksFor n) (counter g)) /\
     skipn n data' = skipn n data) /\
    maxBytesPerRequest g = 2 ^ 15 * Z.of_nat (Hash.Size (Hash.alg (h g))) /\
    (Hash.Size (Hash.alg (h g)) = 32%nat -> maxBytesPerRequest g = 2 ^ 20) /\
    (Hash.Size (Hash.alg (h g)) = 16%nat -> maxBytesPerRequest g = 2 ^ 19).
Proof.
  pose proof (seeded_wf (Instances.sumHash 32 64) [x00]
                (sumHash_lawful 32 64)) as Hs.
  destruct Hs as (Hwf & Hinit & Halg);
    [cbn; lia | cbn; lia | discriminate |].
  apply (C3_Read_length Instances.xorBlock
           (Instances.seeded (Instances.sumHash 32 64) [x00])
           (Slice.make 20) xorBlock_law Hwf Hinit).
  rewrite Halg. right. right. reflexivity.
Defined.

(** C3 as stated fails: a generator over a hash with 64 bytes of output
    (the size of SHA-512) is built and seeded without complaint, and its
    first [Read] panics on the key size. *)
Lemma C3_counterexample_key_size_64 :
  let g := Instances.seeded (Instances.sumHash 64 128) [x00] in
  newGenerator (Instances.sumHash 64 128)
    (Some (Hash.New (Instances.sumHash 64 128))) [x00] = Ok g /\
  wf g /\ initialized g = true /\
  Read Instances.xorBlock g (Slice.make 4) = Panic BadKeySize.
Proof.
  pose proof (seeded_wf (Instances.sumHash 64 128) [x00]
                (sumHash_lawful 64 128)) as Hs.
  destruct Hs as (Hwf & Hinit & Halg);
    [cbn; lia | cbn; lia | discriminate |].
  cbv zeta. split; [| split; [exact Hwf | split; [exact Hinit |]]].
  - unfold Instances.seeded.
    rewrite newGenerator_seed by discriminate.
    rewrite Write_ok by (cbn; lia). reflexivity.
  - unfold Read. rewrite Hinit. cbn [negb].
    rewrite Read_view by (rewrite (wf_max _ Hwf); lia). cbn [bind].
    rewrite NewCipher_invalid; [reflexivity |].
    rewrite (wf_key _ Hwf), Halg. cbn. unfold validKeySize. lia.
Qed.

(** C9. For every hash, every non-empty seed and every sequence of read
    sizes, the generator [newGenerator] builds from the seed is the one
    built without a seed on which [Write(seed)] is then called, so the two
    give the same results and the same output bytes on every run of reads;
    and with a hash and a block function that keep their contracts (block
    size at most 256, an AES key length as output size) the run returns
    its outputs, one buffer of the asked size per read. *)
Theorem C9_seed_then_read_equals_write_then_read
    (sha256 : Hash.algorithm) (E : AES.blockFn) (h0 : option Hash.t)
    (s : list byte) (sizes : list nat) :
  s <> [] ->
  let H := Hash.alg (match h0 with None => Hash.New sha256 | Some h1 => h1 end) in
  let viaConstructor := newGenerator sha256 h0 s in
  let viaWrite :=
    (g0 <- newGenerator sha256 h0 [] ;; '(_, g) <- Write g0 s ;; Ok g) in
  viaConstructor = viaWrite /\
  (g <- viaConstructor ;; readAll E g sizes)
  = (g <- viaWrite ;; readAll E g sizes) /\
  (blockLaw E -> lawful H -> (Hash.BlockSize H <= 256)%nat ->
   validKeySize (Hash.Size H) ->
   exists outs,
     (g <- viaConstructor ;; readAll E g sizes) = Ok outs /\
     map (fun o => length (snd o)) outs = sizes).
Proof.
  intros Hs H viaConstructor viaWrite.
  assert (Heq : viaConstructor = viaWrite).
  { subst viaConstructor viaWrite.
    rewrite newGenerator_seed by exact Hs.
    rewrite newGenerator_empty. reflexivity. }
  split; [exact Heq |]. split; [now rewrite Heq |].
  intros HE Hlaw Hb Hvalid.
  subst viaConstructor. rewrite newGenerator_seed by exact Hs.
  fold H. set (hh := match h0 with None => Hash.New sha256 | Some h1 => h1 end).
  rewrite Write_ok by exact Hb. cbn [bind].
  assert (Hsz : Z.of_nat (Hash.Size H) < 2 ^ 48)
    by (destruct Hvalid as [-> | [-> | ->]]; reflexivity).
  destruct (readAll_ok E (afterWrite (fresh hh) s) sizes HE)
    as (outs & Hrun & _ & Hls).
  - apply afterWrite_wf; [exact Hlaw | now apply fresh_wf].
  - reflexivity.
  - exact Hvalid.
  - exists outs. split; assumption.
Qed.

Lemma C9_seed_then_read_equals_write_then_read_witness :
  let a := Instances.sumHash 32 64 in
  let viaConstructor := newGenerator a None [x00; x01] in
  let viaWrite :=
    (g0 <- newGenerator a None [] ;; '(_, g) <- Write g0 [x00; x01] ;; Ok g) in
  (g <- viaConstructor ;; readAll Instances.xorBlock g [1; 16; 40]%nat)
  = (g <- viaWrite ;; readAll Instances.xorBlock g [1; 16; 40]%nat) /\
  exists outs,
    (g <- viaConstructor ;; readAll Instances.xorBlock g [1; 16; 40]%nat)
    = Ok outs /\
    map (fun o => length (snd o)) outs = [1; 16; 40]%nat.
Proof.
  pose proof (C9_seed_then_read_equals_write_then_read
                (Instances.sumHash 32 64) Instances.xorBlock None
                [x00; x01] [1; 16; 40]%nat) as W.
  destruct W as (_ & Hsame & Hruns); [discriminate |].
  split; [exact Hsame |].
  apply Hruns.
  - exact xorBlock_law.
  - apply sumHash_lawful.
  - cbn. lia.
  - right. right. reflexivity.
Defined.

Lemma incrN_moves n c :
  length c = 16%nat -> (0 < n < 3)%nat -> incrN n c <> c.
Proof.
  intros Hc Hn Heq.
  pose proof (incrN_value n c) as Hv. rewrite Heq in Hv.
  pose proof (value_bound c) as Hb.
  unfold len in *. rewrite Hc in *.
  change (256 ^ Z.of_nat 16) with (2 ^ 128) in *.
  destruct (Z.ltb_spec (value c + Z.of_nat n) (2 ^ 128)) as [Hlt | Hge].
  - rewrite Z.mod_small in Hv by lia. lia.
  - assert (Hm : (value c + Z.of_nat n) mod 2 ^ 128
                 = value c + Z.of_nat n - 2 ^ 128).
    { symmetry. apply Z.mod_unique with (q := 1); lia. }
    lia.
Qed.

(** C10, as the code has it. On every seeded generator whose hash output
    size is a key length of AES, a [Read] into an empty buffer returns 0
    and no error and still rekeys: the key is overwritten with the next
    [size] bytes of keystream under the old key, and the counter is
    stepped once per block that covers them, that is [size/16] times for
    16 and 32 bytes and twice for 24; the counter, and so the generator
    state, is not what it was. *)
Theorem C10_zero_length_Read_rekeys E g :
  blockLaw E -> wf g -> initialized g = true ->
  validKeySize (Hash.Size (Hash.alg (h g))) ->
  let size := Hash.Size (Hash.alg (h g)) in
  exists g',
    Read E g [] = Ok ((0, None), [], g') /\
    key g' = firstn size (keystream E (key g) (blocksFor size) (counter g)) /\
    length (key g') = size /\
    counter g' = incrN (blocksFor size) (counter g) /\
    ((size mod 16 = 0)%nat -> blocksFor size = (size / 16)%nat) /\
    (size = 24%nat -> blocksFor size = 2%nat) /\
    value (counter g')
    = (value (counter g) + Z.of_nat (blocksFor size)) mod 2 ^ 128 /\
    counter g' <> counter g /\
    g' <> g /\
    initialized g' = true.
Proof.
  intros HE Hwf Hinit Hvalid size.
  pose proof (wf_key g Hwf) as Hkey. pose proof (wf_counter g Hwf) as Hctr.
  pose proof (wf_max g Hwf) as Hmax.
  exists (afterRead E g 0).
  assert (Hk : key (afterRead E g 0)
               = firstn size (keystream E (key g) (blocksFor size) (counter g))).
  { cbn [afterRead key afterBlocks counter]. rewrite Hkey. reflexivity. }
  assert (Hc : counter (afterRead E g 0) = incrN (blocksFor size) (counter g)).
  { cbn [afterRead afterBlocks counter key]. rewrite Hkey. reflexivity. }
  assert (Hbf : (0 < blocksFor size < 3)%nat).
  { subst size. destruct Hvalid as [-> | [-> | ->]]; cbv; lia. }
  assert (Hne : counter (afterRead E g 0) <> counter g).
  { rewrite Hc. now apply incrN_moves. }
  split.
  { pose proof (Read_ok E HE g [] Hwf Hinit Hvalid) as HR.
    cbn [length Nat.min] in HR. exact HR. }
  split; [exact Hk |].
  split.
  { rewrite Hk, length_firstn, (keystream_length E HE).
    pose proof (blocksFor_covers size). lia. }
  split; [exact Hc |].
  split.
  { intros Hm. subst size.
    destruct Hvalid as [Hv | [Hv | Hv]]; rewrite Hv in *;
      try reflexivity. cbv in Hm. discriminate. }
  split; [intros ->; reflexivity |].
  split.
  { rewrite Hc, incrN_value. unfold len. now rewrite Hctr. }
  split; [exact Hne |].
  split; [intros Hg; apply Hne; now rewrite Hg | exact Hinit].
Qed.

Lemma C10_zero_length_Read_rekeys_witness :
  let g := Instances.seeded (Instances.sumHash 32 64) [x00] in
  exists g',
    Read Instances.xorBlock g [] = Ok ((0, None), [], g') /\
    key g' = firstn 32 (keystream Instances.xorBlock (key g) 2 (counter g)) /\
    counter g' = incrN 2 (counter g) /\
    counter g' <> counter g.
Proof.
  pose proof (seeded_wf (Instances.sumHash 32 64) [x00]
                (sumHash_lawful 32 64)) as Hs.
  destruct Hs as (Hwf & Hinit & Halg);
    [cbn; lia | cbn; lia | discriminate |].
  assert (Hvalid : validKeySize
            (Hash.Size (Hash.alg (h (Instances.seeded (Instances.sumHash 32 64) [x00])))))
    by (rewrite Halg; right; right; reflexivity).
  destruct (C10_zero_length_Read_rekeys Instances.xorBlock
              (Instances.seeded (Instances.sumHash 32 64) [x00])
              xorBlock_law Hwf Hinit Hvalid)
    as (g' & HR & Hk & _ & Hc & _ & _ & _ & Hne & _).
  rewrite Halg in Hk, Hc.
  exists g'. repeat split; assumption.
Defined.

(** C10 as stated fails. Over a hash with 64 bytes of output the
    zero-length [Read] of a seeded generator panics on the key size; over
    one with 24 bytes the counter is stepped twice, not [24/16] times. *)
Lemma C10_counterexample_key_sizes_64_and_24 :
  (let g := Instances.seeded (Instances.sumHash 64 128) [x00] in
   initialized g = true /\
   Read Instances.xorBlock g [] = Panic BadKeySize) /\
  (let g := Instances.seeded (Instances.sumHash 24 64) [x00] in
   exists g',
     Read Instances.xorBlock g [] = Ok ((0, None), [], g') /\
     counter g' = incrN 2 (counter g) /\
     counter g' <> incrN (24 / 16) (counter g)).
Proof.
  split.
  - pose proof (seeded_wf (Instances.sumHash 64 128) [x00]
                  (sumHash_lawful 64 128)) as Hs.
    destruct Hs as (Hwf & Hinit & Halg);
      [cbn; lia | cbn; lia | discriminate |].
    cbv zeta. split; [exact Hinit |].
    unfold Read. rewrite Hinit. cbn [negb].
    rewrite Read_view by (rewrite (wf_max _ Hwf); lia). cbn [bind].
    rewrite NewCipher_invalid; [reflexivity |].
    rewrite (wf_key _ Hwf), Halg. cbn. unfold validKeySize. lia.
  - pose proof (seeded_wf (Instances.sumHash 24 64) [x00]
                  (sumHash_lawful 24 64)) as Hs.
    destruct Hs as (Hwf & Hinit & Halg);
      [cbn; lia | cbn; lia | discriminate |].
    cbv zeta. exists (afterRead Instances.xorBlock
                        (Instances.seeded (Instances.sumHash 24 64) [x00]) 0).
    assert (Hvalid : validKeySize
              (Hash.Size (Hash.alg (h (Instances.seeded (Instances.sumHash 24 64) [x00])))))
      by (rewrite Halg; right; left; reflexivity).
    pose proof (Read_ok Instances.xorBlock xorBlock_law _ [] Hwf Hinit Hvalid)
      as HR.
    cbn [length Nat.min] in HR.
    split; [exact HR |].
    assert (Hc : counter (afterRead Instances.xorBlock
                   (Instances.seeded (Instances.sumHash 24 64) [x00]) 0)
                 = incrN 2 (counter (Instances.seeded (Instances.sumHash 24 64) [x00]))).
    { cbn [afterRead afterBlocks counter key].
      rewrite (wf_key _ Hwf), Halg. reflexivity. }
    split; [exact Hc |].
    rewrite Hc. change (24 / 16)%nat with 1%nat.
    change (incrN 2 ?c) with (incrN 1 (incrN 1 c)).
    apply incrN_moves; [| lia].
    rewrite incrN_length. apply (wf_counter _ Hwf).
Qed.
End GeneratorClaims.

(* ===================================================================== *)
(** ** Properties of the accumulator *)
(* ===================================================================== *)

Module FortunaFacts.
Import Counter Generator GeneratorSpec Fortuna FortunaSpec.
Import GeneratorFacts.

(** *** The pools a reseed takes *)

Lemma pow2_divide i j : (i <= j)%nat -> (2 ^ Z.of_nat i | 2 ^ Z.of_nat j).
Proof.
  intros Hij. exists (2 ^ (Z.of_nat j - Z.of_nat i)).
  rewrite <- Z.pow_add_r by lia. f_equal. lia.
Qed.

Lemma selectedFrom_spec fuel : forall i n,
  (forall j, (j < i)%nat -> (2 ^ Z.of_nat j | n)) ->
  (i + selectedFrom fuel i n <= i + fuel)%nat /\
  forall j, (j < i + fuel)%nat ->
    ((j < i + selectedFrom fuel i n)%nat <-> (2 ^ Z.of_nat j | n)).
Proof.
  induction fuel as [| f IH]; intros i n Hbelow.
  - cbn [selectedFrom]. split; [lia |].
    intros j Hj. split; [intros _; apply Hbelow; lia | lia].
  - cbn [selectedFrom].
    destruct (Z.eqb_spec (n mod 2 ^ Z.of_nat i) 0) as [Hz | Hnz].
    + assert (Hi : (2 ^ Z.of_nat i | n)) by (apply Z.mod_divide; lia).
      destruct (IH (S i) n) as [Hle Hiff].
      { intros j Hj. destruct (Nat.eq_dec j i) as [-> | Hne];
          [exact Hi | apply Hbelow; lia]. }
      split; [lia |].
      intros j Hj. rewrite <- Hiff by lia. lia.
    + split; [lia |].
      intros j Hj. split; [intros Hlt; apply Hbelow; lia |].
      intros Hd. destruct (Nat.lt_ge_cases j i) as [Hlt | Hge]; [lia |].
      exfalso. apply Hnz. apply Z.mod_divide; [lia |].
      apply Z.divide_trans with (2 ^ Z.of_nat j); [now apply pow2_divide | exact Hd].
Qed.

Lemma mask_step i :
  0 <= i < 62 ->
  Z.lor (wrapInt (Z.shiftl (Z.ones i) 1)) 1 = Z.ones (i + 1).
Proof.
  intros Hi. rewrite !Z.ones_equiv, Z.shiftl_mul_pow2 by lia.
  assert (Hp : 0 < 2 ^ i) by (apply Z.pow_pos_nonneg; lia).
  assert (Hq : 2 ^ i <= 2 ^ 61) by (apply Z.pow_le_mono_r; lia).
  rewrite wrapInt_small by lia.
  rewrite Z.pow_add_r by lia. change (2 ^ 1) with 2.
  rewrite Z.or_to_plus; [lia |].
  change (Z.land (Z.pred (2 ^ i) * 2) 1)
    with (Z.land (Z.pred (2 ^ i) * 2) (Z.ones 1)).
  rewrite Z.land_ones by lia.
  change (2 ^ 1) with 2.
  replace (Z.pred (2 ^ i) * 2) with (0 + Z.pred (2 ^ i) * 2) by lia.
  now rewrite Z.mod_add by lia.
Qed.

Lemma mask_test n i :
  0 <= i -> (Z.land n (Z.ones i) =? 0) = (n mod 2 ^ i =? 0).
Proof. intros Hi. now rewrite Z.land_ones by lia. Qed.

Lemma upds_at {A} (pre old rest new : list A) i :
  i = length pre -> length new = length old ->
  List.upds (pre ++ old ++ rest) i new = pre ++ new ++ rest.
Proof. intros ->. apply upds_middle. Qed.

(** The loop of [reseed] from pool [i] on, the pools before [i] taken
    and reset already. *)
Lemma reseedLoop_spec (P : list countedHash) n fuel : forall i,
  (i + fuel = 32)%nat -> length P = 32%nat ->
  reseedLoop fuel (Z.of_nat i) (Z.ones (Z.of_nat i)) n
    (map countedReset (firstn i P) ++ skipn i P)
    (concat (map digestOf (firstn i P)))
  = (let k := (i + selectedFrom fuel i n)%nat in
     (map countedReset (firstn k P) ++ skipn k P,
      concat (map digestOf (firstn k P)))).
Proof.
  induction fuel as [| f IH]; intros i Hi HP.
  - cbn [reseedLoop selectedFrom]. now rewrite Nat.add_0_r.
  - cbn [reseedLoop selectedFrom]. unfold numPools.
    replace (Z.of_nat i <? 32) with true by (symmetry; apply Z.ltb_lt; lia).
    cbn [andb]. rewrite mask_test by lia.
    destruct (n mod 2 ^ Z.of_nat i =? 0); [| now rewrite Nat.add_0_r].
    rewrite Nat2Z.id.
    destruct (skipn i P) as [| p P2] eqn:Eskip.
    { apply (f_equal (@length _)) in Eskip.
      rewrite length_skipn in Eskip. cbn in Eskip. lia. }
    assert (Hf : firstn (S i) P = firstn i P ++ [p]).
    { rewrite <- (firstn_skipn i P) at 1. rewrite Eskip.
      rewrite firstn_app, length_firstn.
      replace (S i - Nat.min i (length P))%nat with 1%nat by lia.
      rewrite firstn_all2 by (rewrite length_firstn; lia). reflexivity. }
    assert (Hs : skipn (S i) P = P2).
    { change (S i) with (1 + i)%nat. rewrite <- skipn_skipn, Eskip.
      reflexivity. }
    assert (Hl : length (map countedReset (firstn i P)) = i)
      by (rewrite length_map, length_firstn; lia).
    rewrite nth_error_app2 by (rewrite Hl; lia).
    rewrite Hl, Nat.sub_diag. cbn [nth_error].
    rewrite mask_step by lia.
    replace (Z.of_nat i + 1) with (Z.of_nat (S i)) by lia.
    unfold List.upd. change (p :: P2) with ([p] ++ P2).
    replace (List.upds (map countedReset (firstn i P) ++ [p] ++ P2) i
               [countedReset p])
      with (map countedReset (firstn i P) ++ [countedReset p] ++ P2)
      by (symmetry; apply upds_at; [now rewrite Hl | reflexivity]).
    unfold Hash.Sum. fold (digestOf p).
    replace (map countedReset (firstn i P) ++ [countedReset p] ++ P2)
      with (map countedReset (firstn (S i) P) ++ skipn (S i) P)
      by (rewrite Hf, Hs, map_app, <- app_assoc; reflexivity).
    replace (concat (map digestOf (firstn i P)) ++ digestOf p)
      with (concat (map digestOf (firstn (S i) P)))
      by (rewrite Hf, map_app, concat_app; cbn; now rewrite app_nil_r).
    rewrite IH by lia. cbv zeta.
    now rewrite Nat.add_succ_r.
Qed.

(** What the pools look like after the loop, pool by pool. *)
Lemma emptied_below (P : list countedHash) k i :
  (k <= length P)%nat -> (i < k)%nat ->
  exists p',
    nth_error
      (map (fun p => {| Hash_ := {| Hash.alg := Hash.alg (Hash_ p);
                                    Hash.written := [] |};
                        length_ := 0 |})
         (firstn k P) ++ skipn k P) i = Some p' /\
    Hash.written (Hash_ p') = [] /\ length_ p' = 0 /\
    Hash.Sum (Hash_ p') [] = Hash.digest (Hash.alg (Hash_ p')) [] /\
    option_map (fun p => Hash.alg (Hash_ p)) (nth_error P i)
    = Some (Hash.alg (Hash_ p')).
Proof.
  intros Hk Hi.
  destruct (nth_error P i) as [p |] eqn:E.
  2:{ apply nth_error_None in E. lia. }
  exists {| Hash_ := {| Hash.alg := Hash.alg (Hash_ p); Hash.written := [] |};
            length_ := 0 |}.
  split.
  - rewrite nth_error_app1 by (rewrite length_map, length_firstn; lia).
    rewrite nth_error_map, nth_error_firstn.
    destruct (i <? k)%nat eqn:Elt; [| apply Nat.ltb_ge in Elt; lia].
    rewrite E. reflexivity.
  - repeat split.
Qed.

Lemma kept_from (P : list countedHash) (f : countedHash -> countedHash) k i :
  (k <= length P)%nat -> (k <= i)%nat ->
  nth_error (map f (firstn k P) ++ skipn k P) i = nth_error P i.
Proof.
  intros Hk Hi.
  rewrite nth_error_app2 by (rewrite length_map, length_firstn; lia).
  rewrite length_map, length_firstn, Nat.min_l by lia.
  rewrite nth_error_skipn. f_equal. lia.
Qed.

(** C4. In every reseed, [numReseed] is stepped first (by exactly one
    below the largest [int]); pool [i] is taken iff [2^i] divides the new
    [numReseed], the pools being visited from 0 upward up to the first one
    left out; the digests of the pools taken are put one after the other,
    in pool order, in the seed buffer, each pool being reset once its
    digest is taken: a pool taken is left with nothing written and a
    length of 0, its hash algorithm kept, and the pools from the first one
    left out on are left as they were; and the buffer goes to the
    generator in one [Write]. Pool 0 is always taken and the time of the
    reseed is recorded. *)
Theorem C4_reseed_selects_pools_by_divisibility a now :
  wfAcc a ->
  let n' := wrapInt (numReseed a + 1) in
  let k := selected n' in
  let seed := concat (map digestOf (firstn k (pools a))) in
  exists a',
    reseed a now = Ok a' /\
    numReseed a' = n' /\
    (minInt <= numReseed a < maxInt -> numReseed a' = numReseed a + 1) /\
    (1 <= k <= 32)%nat /\
    (forall i, (i < 32)%nat -> ((i < k)%nat <-> (2 ^ Z.of_nat i | n'))) /\
    pools a'
    = map (fun p => {| Hash_ := {| Hash.alg := Hash.alg (Hash_ p);
                                   Hash.written := [] |};
                       length_ := 0 |})
        (firstn k (pools a))
      ++ skipn k (pools a) /\
    (forall i, (i < k)%nat ->
       exists p',
         nth_error (pools a') i = Some p' /\
         Hash.written (Hash_ p') = [] /\ length_ p' = 0 /\
         Hash.Sum (Hash_ p') [] = Hash.digest (Hash.alg (Hash_ p')) [] /\
         option_map (fun p => Hash.alg (Hash_ p)) (nth_error (pools a) i)
         = Some (Hash.alg (Hash_ p'))) /\
    (forall i, (k <= i)%nat -> nth_error (pools a') i = nth_error (pools a) i) /\
    Write (generator_ a) seed = Ok ((len seed, None), generator_ a') /\
    lastReseed a' = now /\
    nextPool a' = nextPool a /\
    inflight a' = inflight a.
Proof.
  intros [Hpools Hnext Hblock] n' k seed.
  change (Z.to_nat numPools) with 32%nat in Hpools.
  pose proof (reseedLoop_spec (pools a) n' 32 0 eq_refl Hpools) as Hloop.
  cbn [firstn skipn map concat app Z.of_nat Nat.add] in Hloop.
  change (Z.ones 0) with 0 in Hloop.
  destruct (selectedFrom_spec 32 0 n') as [Hle Hiff]; [intros j Hj; lia |].
  cbn [Nat.add] in Hle, Hiff.
  change (selectedFrom 32 0 n') with k in Hle, Hiff, Hloop.
  cbv zeta in Hloop. fold seed in Hloop.
  eexists. unfold reseed. cbv zeta.
  change (Z.to_nat numPools) with 32%nat. fold n'. rewrite Hloop.
  rewrite Write_ok by (rewrite Hblock; lia). cbn [bind].
  split; [reflexivity |].
  cbn [numReseed pools generator_ lastReseed nextPool inflight].
  split; [reflexivity |].
  split.
  { intros Hr. subst n'. apply wrapInt_small.
    unfold minInt, maxInt, intBits in Hr. change (64 - 1) with 63 in Hr. lia. }
  split.
  { split; [| lia]. apply (Hiff 0%nat); [lia |]. apply Z.divide_1_l. }
  split; [exact Hiff |].
  split; [reflexivity |].
  split; [intros i Hi; apply (emptied_below (pools a) k i); lia |].
  split; [intros i Hi; apply (kept_from (pools a) countedReset k i); lia |].
  repeat split.
Qed.

Lemma C4_reseed_selects_pools_by_divisibility_witness :
  let a := Instances.accAfter 3 in
  exists a',
    reseed a 7 = Ok a' /\
    numReseed a' = 4 /\
    (forall i, (i < 32)%nat -> ((i < 3)%nat <-> (2 ^ Z.of_nat i | 4))) /\
    pools a'
    = repeat {| Hash_ := {| Hash.alg := Hash.sha256 (Instances.sumDigest 32);
                            Hash.written := [] |};
                length_ := 0 |} 3
      ++ repeat {| Hash_ := {| Hash.alg := Hash.sha256 (Instances.sumDigest 32);
                               Hash.written := [x01] |};
                   length_ := 1 |} 29 /\
    Write (generator_ a) (concat (map digestOf (firstn 3 (pools a))))
    = Ok ((96, None), generator_ a').
Proof.
  assert (Hwf : wfAcc (Instances.accAfter 3))
    by (constructor; [reflexivity | cbv; split; congruence | reflexivity]).
  destruct (C4_reseed_selects_pools_by_divisibility
              (Instances.accAfter 3) 7 Hwf)
    as (a' & Hr & Hn & Hstep & _ & Hiff & Hp & _ & _ & Hw & _).
  exists a'. repeat split; try assumption.
  - apply Hiff; assumption.
  - apply Hiff; assumption.
Defined.

(** [reseed] returns on every accumulator of the right shape, and keeps
    the shape. *)
Lemma reseed_total a now :
  wfAcc a ->
  exists a',
    reseed a now = Ok a' /\
    numReseed a' = wrapInt (numReseed a + 1) /\
    lastReseed a' = now /\
    wfAcc a' /\
    initialized (generator_ a') = true.
Proof.
  intros Hwf. pose proof Hwf as [Hpools Hnext Hblock].
  change (Z.to_nat numPools) with 32%nat in Hpools.
  pose proof (reseedLoop_spec (pools a) (wrapInt (numReseed a + 1)) 32 0
                eq_refl Hpools) as Hloop.
  cbn [firstn skipn map concat app Z.of_nat Nat.add] in Hloop.
  change (Z.ones 0) with 0 in Hloop. cbv zeta in Hloop.
  eexists. unfold reseed. cbv zeta.
  change (Z.to_nat numPools) with 32%nat. rewrite Hloop.
  rewrite Write_ok by (rewrite Hblock; lia). cbn [bind].
  split; [reflexivity |].
  cbn [numReseed pools generator_ lastReseed nextPool inflight].
  split; [reflexivity |]. split; [reflexivity |].
  split; [| reflexivity].
  constructor; cbn [pools nextPool generator_]; try assumption.
  rewrite length_app, length_map, length_firstn, length_skipn.
  change (Z.to_nat numPools) with 32%nat. lia.
Qed.

(** *** NewFortuna *)

Lemma allot_length n seed : length (allot n seed) = n.
Proof.
  revert seed. induction n as [| n IH]; intros seed; [reflexivity |].
  cbn [allot length]. now rewrite IH.
Qed.

Lemma allot_concat n seed : (0 < n)%nat -> concat (allot n seed) = seed.
Proof.
  revert seed. induction n as [| n IH]; intros seed Hn; [lia |].
  cbn [allot concat].
  destruct n as [| n].
  - cbn [allot concat]. rewrite Nat.add_0_r, Nat.div_1_r, app_nil_r.
    apply firstn_all.
  - rewrite IH by lia. apply firstn_skipn.
Qed.

Lemma share_le L n : ((L + n) / S n <= L)%nat.
Proof.
  destruct L as [| L].
  - rewrite Nat.div_small; lia.
  - apply Nat.lt_succ_r. apply Nat.Div0.div_lt_upper_bound. nia.
Qed.

(** The first [L mod n] shares have one byte more than the others. *)
Lemma allot_share_length n : forall seed j,
  (j < n)%nat ->
  length (nth j (allot n seed) [])
  = (length seed / n + (if j <? length seed mod n then 1 else 0))%nat.
Proof.
  induction n as [| n IH]; intros seed j Hj; [lia |].
  set (L := length seed). set (q := (L / S n)%nat). set (r := (L mod S n)%nat).
  assert (HL : L = (S n * q + r)%nat) by (subst q r; apply Nat.div_mod_eq).
  assert (Hr : (r < S n)%nat) by (subst r; apply Nat.mod_upper_bound; lia).
  set (k := ((L + n) / S n)%nat).
  assert (Hk : k = (q + (if (0 <? r)%nat then 1 else 0))%nat).
  { subst k. destruct (Nat.ltb_spec 0 r) as [Hpos | Hzero]; symmetry.
    - apply Nat.div_unique with (r := (r - 1)%nat); lia.
    - apply Nat.div_unique with (r := n); lia. }
  pose proof (share_le L n) as Hle. fold k in Hle.
  change (allot (S n) seed) with (firstn k seed :: allot n (skipn k seed)).
  destruct j as [| j]; cbn [nth].
  - rewrite length_firstn. fold L. rewrite Hk in *. lia.
  - rewrite IH by lia. rewrite length_skipn. fold L.
    destruct (Nat.ltb_spec 0 r) as [Hpos | Hzero].
    + assert (Hd : ((L - k) / n)%nat = q)
        by (symmetry; apply Nat.div_unique with (r := (r - 1)%nat); nia).
      assert (Hm : ((L - k) mod n)%nat = (r - 1)%nat)
        by (symmetry; apply Nat.mod_unique with (q := q); nia).
      rewrite Hd, Hm.
      destruct (Nat.ltb_spec j (r - 1)), (Nat.ltb_spec (S j) r); lia.
    + assert (Hd : ((L - k) / n)%nat = q)
        by (symmetry; apply Nat.div_unique with (r := 0%nat); nia).
      assert (Hm : ((L - k) mod n)%nat = 0%nat)
        by (symmetry; apply Nat.mod_unique with (q := q); nia).
      rewrite Hd, Hm.
      destruct (Nat.ltb_spec j 0), (Nat.ltb_spec (S j) r); lia.
Qed.

Lemma slice_to_ok {A} (s : list A) (k : nat) :
  (k <= length s)%nat -> Slice.to s (Z.of_nat k) = Ok (firstn k s).
Proof.
  intros Hk. unfold Slice.to, len.
  replace (0 <=? Z.of_nat k) with true by (symmetry; apply Z.leb_le; lia).
  replace (Z.of_nat k <=? Z.of_nat (length s)) with true
    by (symmetry; apply Z.leb_le; lia).
  cbn [andb]. now rewrite Nat2Z.id.
Qed.

Lemma slice_from_ok {A} (s : list A) (k : nat) :
  (k <= length s)%nat -> Slice.from s (Z.of_nat k) = Ok (skipn k s).
Proof.
  intros Hk. unfold Slice.from, len.
  replace (0 <=? Z.of_nat k) with true by (symmetry; apply Z.leb_le; lia).
  replace (Z.of_nat k <=? Z.of_nat (length s)) with true
    by (symmetry; apply Z.leb_le; lia).
  cbn [andb]. now rewrite Nat2Z.id.
Qed.

Lemma withInflight_nil a : withInflight a [] = a.
Proof. destruct a. unfold withInflight. cbn. now rewrite app_nil_r. Qed.

Lemma withInflight_app a l1 l2 :
  withInflight (withInflight a l1) l2 = withInflight a (l1 ++ l2).
Proof. unfold withInflight. cbn. now rewrite app_assoc. Qed.

Section WithDigests.
Variable sha256sum sha1sum : list byte -> list byte.

(** The loop of [NewFortuna] over the pools [i .. 31] submits the
    shares of the seed it is given, one event per pool, in order. *)
Lemma distribute_spec n : forall i seed a,
  (i + n = 32)%nat ->
  distribute sha1sum n (Z.of_nat i) seed a
  = Ok (withInflight a (eventsFrom sha1sum i (allot n seed))).
Proof.
  induction n as [| n IH]; intros i seed a Hi.
  - cbn [distribute allot]. unfold eventsFrom. cbn.
    now rewrite withInflight_nil.
  - cbn [distribute]. unfold numPools.
    set (k := ((length seed + n) / S n)%nat).
    assert (Hper : (len seed + (32 - Z.of_nat i) - 1) / (32 - Z.of_nat i)
                   = Z.of_nat k).
    { subst k. unfold len. rewrite Nat2Z.inj_div.
      f_equal; lia. }
    rewrite Hper.
    pose proof (share_le (length seed) n) as Hle. fold k in Hle.
    rewrite slice_to_ok by exact Hle. cbn [bind].
    rewrite slice_from_ok by exact Hle. cbn [bind].
    replace (Z.of_nat i + 1) with (Z.of_nat (S i)) by lia.
    rewrite IH by lia.
    f_equal. change (allot (S n) seed)
      with (firstn k seed :: allot n (skipn k seed)).
    unfold eventsFrom at 2. cbn [length seq combine map fst snd].
    fold (eventsFrom sha1sum (S i) (allot n (skipn k seed))).
    unfold withInflight, AddRandomEvent.
    cbn [numReseed nextPool lastReseed generator_ pools inflight].
    now rewrite <- app_assoc.
Qed.

Lemma pool0_block (seed : list byte) :
  (48 <= length seed)%nat ->
  List.upds (Slice.make 64) 16 (Slice.copy (skipn 16 (Slice.make 64)) seed)
  = repeat x00 16 ++ firstn 48 seed.
Proof.
  intros Hs.
  change (skipn 16 (Slice.make 64)) with (repeat x00 48).
  assert (Hcopy : Slice.copy (repeat x00 48) seed = firstn 48 seed).
  { unfold Slice.copy, List.upds. rewrite repeat_length.
    rewrite skipn_all2 by (rewrite repeat_length; lia).
    cbn [firstn Nat.sub app]. now rewrite app_nil_r. }
  rewrite Hcopy.
  change (Slice.make 64) with (repeat x00 16 ++ repeat x00 48 ++ []).
  rewrite (upds_at (repeat x00 16) (repeat x00 48) [] (firstn 48 seed) 16).
  - now rewrite app_nil_r.
  - reflexivity.
  - rewrite length_firstn, repeat_length. lia.
Qed.

Lemma ingestSeed_ok seed :
  (80 <= length seed)%nat ->
  ingestSeed sha256sum sha1sum seed
  = Ok (withInflight (emptyAcc sha256sum)
          (eventBuffer sha1sum x00 (repeat x00 16 ++ firstn 48 seed)
           :: eventsFrom sha1sum 1 (allot 31 (skipn 80 seed)))).
Proof.
  intros Hs. unfold ingestSeed.
  rewrite newGenerator_empty. cbn [bind].
  change (Z.to_nat minPoolSize) with 64%nat.
  change (Z.to_nat numPools) with 32%nat.
  change 16 with (Z.of_nat 16).
  rewrite slice_from_ok by (unfold Slice.make; rewrite repeat_length; lia).
  cbn [bind]. rewrite pool0_block by lia.
  change (minPoolSize + Z.of_nat 16) with (Z.of_nat 80).
  rewrite slice_from_ok by exact Hs. cbn [bind].
  change (Z.to_nat (numPools - 1)) with 31%nat.
  change 1 with (Z.of_nat 1).
  rewrite distribute_spec by reflexivity.
  unfold withInflight, AddRandomEvent, emptyAcc.
  cbn [numReseed nextPool lastReseed generator_ pools inflight].
  cbn [app].
  reflexivity.
Qed.
End WithDigests.

Lemma deliver_inv k a :
  wfAcc a ->
  wfAcc (deliver k a) /\
  numReseed (deliver k a) = numReseed a /\
  generator_ (deliver k a) = generator_ a.
Proof.
  intros Hwf. pose proof Hwf as [Hp Hn Hb]. unfold deliver.
  destruct (nth_error (inflight a) k) as [buffer |];
    [| split; [exact Hwf | split; reflexivity]].
  destruct (nth_error (pools a) (Z.to_nat (nextPool a))) as [p |];
    [| split; [exact Hwf | split; reflexivity]].
  cbn [countedWrite Hash.Write].
  split; [| split; reflexivity].
  constructor; cbn [pools nextPool generator_ numReseed].
  - now rewrite List.upd_length.
  - apply Z.mod_pos_bound. reflexivity.
  - exact Hb.
Qed.

Lemma runGoroutines_inv sched : forall a,
  wfAcc a ->
  wfAcc (runGoroutines sched a) /\
  numReseed (runGoroutines sched a) = numReseed a /\
  generator_ (runGoroutines sched a) = generator_ a.
Proof.
  induction sched as [| k sched IH]; intros a Hwf.
  - split; [exact Hwf | split; reflexivity].
  - cbn [runGoroutines fold_left].
    destruct (deliver_inv k a Hwf) as (Hwf' & Hn & Hg).
    destruct (IH (deliver k a) Hwf') as (Hwf'' & Hn' & Hg').
    unfold runGoroutines in *. rewrite Hn', Hg'.
    split; [exact Hwf'' | split; assumption].
Qed.

Lemma inflight_emptyAcc sha256sum buffers :
  inflight (withInflight (emptyAcc sha256sum) buffers) = buffers.
Proof. reflexivity. Qed.

Lemma nth_S_cons {A} (e : A) l j d : nth (S j) (e :: l) d = nth j l d.
Proof. reflexivity. Qed.

Lemma emptyAcc_wf sha256sum buffers :
  wfAcc (withInflight (emptyAcc sha256sum) buffers).
Proof. constructor; [reflexivity | cbv; split; congruence | reflexivity]. Qed.

Lemma NewFortuna_ok sha256sum sha1sum now sched seed :
  128 <= len seed ->
  exists a,
    NewFortuna sha256sum sha1sum now sched seed = Ok (inl a) /\
    numReseed a = 1 /\ lastReseed a = now /\ wfAcc a /\
    initialized (generator_ a) = true.
Proof.
  intros Hs. unfold NewFortuna, minPoolSize.
  replace (len seed <? 2 * 64) with false by (symmetry; apply Z.ltb_ge; lia).
  rewrite ingestSeed_ok by (unfold len in Hs; lia). cbn [bind].
  set (a1 := withInflight (emptyAcc sha256sum) _).
  destruct (runGoroutines_inv sched a1 (emptyAcc_wf _ _)) as (Hwf & Hn & Hg).
  destruct (reseed_total (runGoroutines sched a1) now Hwf)
    as (a' & Hr & Hn' & Hl & Hwf' & Hi).
  rewrite Hr. cbn [bind]. exists a'.
  split; [reflexivity |]. rewrite Hn', Hn.
  split; [reflexivity |].
  split; [exact Hl |]. split; [exact Hwf' | exact Hi].
Qed.

(** C2, as the code has it. For every seed, [NewFortuna] returns an
    accumulator (after its first reseed) when the seed has at least
    [2*minPoolSize = 128] bytes, and fails with "initial seed is too
    short" exactly when it has fewer than 128, whatever goroutines ran
    before its reseed. *)
Theorem C2_NewFortuna_needs_128_bytes sha256sum sha1sum now sched seed :
  (128 <= len seed ->
   exists a,
     NewFortuna sha256sum sha1sum now sched seed = Ok (inl a) /\
     numReseed a = 1) /\
  (NewFortuna sha256sum sha1sum now sched seed = Ok (inr ErrSeedTooShort)
   <-> len seed < 128).
Proof.
  split.
  - intros Hs.
    destruct (NewFortuna_ok sha256sum sha1sum now sched seed Hs)
      as (a & Ha & Hn & _).
    exists a. split; assumption.
  - split.
    + intros Hf. destruct (Z.lt_ge_cases (len seed) 128) as [Hlt | Hge];
        [exact Hlt |].
      destruct (NewFortuna_ok sha256sum sha1sum now sched seed Hge)
        as (a & Ha & _).
      rewrite Ha in Hf. discriminate.
    + intros Hlt. unfold NewFortuna, minPoolSize.
      replace (len seed <? 2 * 64) with true
        by (symmetry; apply Z.ltb_lt; lia).
      reflexivity.
Qed.

Lemma C2_NewFortuna_needs_128_bytes_witness :
  exists a,
    NewFortuna (Instances.sumDigest 32) (Instances.sumDigest 20) 5 [0%nat; 3%nat]
      Instances.seed128 = Ok (inl a) /\
    numReseed a = 1.
Proof.
  apply (proj1 (C2_NewFortuna_needs_128_bytes
                  (Instances.sumDigest 32) (Instances.sumDigest 20) 5
                  [0%nat; 3%nat] Instances.seed128)).
  vm_compute. discriminate.
Defined.

(** C2 as stated fails: seeds of 64 and of 127 bytes are refused. *)
Lemma C2_counterexample_seed_of_64_bytes :
  NewFortuna (Instances.sumDigest 32) (Instances.sumDigest 20) 0 []
    (repeat x00 64) = Ok (inr ErrSeedTooShort) /\
  NewFortuna (Instances.sumDigest 32) (Instances.sumDigest 20) 0 []
    (repeat x00 127) = Ok (inr ErrSeedTooShort).
Proof. split; reflexivity. Qed.

Lemma eventsFrom_nth sha1sum shares : forall i j,
  (j < length shares)%nat ->
  nth j (eventsFrom sha1sum i shares) []
  = eventBuffer sha1sum (byte.of_Z (Z.of_nat (i + j))) (nth j shares []).
Proof.
  induction shares as [| s shares IH]; intros i j Hj; [cbn in Hj; lia |].
  unfold eventsFrom. cbn [length seq combine map fst snd].
  fold (eventsFrom sha1sum (S i) shares).
  destruct j as [| j]; cbn [nth].
  - now rewrite Nat.add_0_r.
  - rewrite IH by (cbn [length] in Hj; lia). do 3 f_equal. lia.
Qed.

(** Each share is the next [ceil(remaining_bytes / remaining_pools)]
    bytes of what the shares before it left. *)
Lemma allot_share_is_ceil n : forall seed j,
  (j < n)%nat ->
  let left := skipn (length (concat (firstn j (allot n seed)))) seed in
  nth j (allot n seed) []
  = firstn ((length left + (n - 1 - j)) / (n - j)) left.
Proof.
  induction n as [| n IH]; intros seed j Hj; [lia |].
  set (k := ((length seed + n) / S n)%nat).
  pose proof (share_le (length seed) n) as Hle. fold k in Hle.
  change (allot (S n) seed) with (firstn k seed :: allot n (skipn k seed)).
  destruct j as [| j]; cbv zeta.
  - cbn [firstn concat length skipn nth].
    replace (S n - 1 - 0)%nat with n by lia.
    replace (S n - 0)%nat with (S n) by lia. reflexivity.
  - cbn [firstn concat nth].
    rewrite length_app, length_firstn.
    replace (Nat.min k (length seed)) with k by lia.
    set (m := length (concat (firstn j (allot n (skipn k seed))))).
    replace (skipn (k + m) seed) with (skipn m (skipn k seed))
      by (rewrite skipn_skipn; f_equal; lia).
    replace (S n - 1 - S j)%nat with (n - 1 - j)%nat by lia.
    replace (S n - S j)%nat with (n - j)%nat by lia.
    subst m. apply IH. lia.
Qed.

(** X18. What [NewFortuna] has submitted when its loop ends, for every
    seed of at least 128 bytes: first the event of source 0 with the
    64-byte block of 16 zero bytes and the first 48 bytes of the seed, then
    for [i] from 1 to 31 the event of source [i] with the next
    [ceil(remaining_bytes / remaining_pools)] bytes of the seed, taken from
    byte [minPoolSize+16 = 80] on, so that the first shares are one byte
    longer when the division is not even. The 31 shares put end to end are
    the seed from byte 80 on. The buffers are in flight in this order; the
    pool each one goes to is decided later, by the order in which the
    goroutines run. *)
Theorem NewFortuna_submits_seed_from_byte_80 sha256sum sha1sum seed :
  128 <= len seed ->
  let rest := skipn 80 seed in
  let shares := allot 31 rest in
  exists a,
    ingestSeed sha256sum sha1sum seed = Ok a /\
    inflight a
    = eventBuffer sha1sum x00 (repeat x00 16 ++ firstn 48 seed)
      :: eventsFrom sha1sum 1 shares /\
    length shares = 31%nat /\
    concat shares = rest /\
    (forall j, (j < 31)%nat ->
       nth (S j) (inflight a) []
       = eventBuffer sha1sum (byte.of_Z (Z.of_nat (S j))) (nth j shares []) /\
       nth j shares []
       = firstn ((length (skipn (length (concat (firstn j shares))) rest)
                  + (30 - j)) / (31 - j))
           (skipn (length (concat (firstn j shares))) rest) /\
       length (nth j shares [])
       = (length rest / 31
          + (if j <? length rest mod 31 then 1 else 0))%nat).
Proof.
  intros Hs rest shares.
  assert (Hlen : (128 <= length seed)%nat) by (unfold len in Hs; lia).
  exists (withInflight (emptyAcc sha256sum)
            (eventBuffer sha1sum x00 (repeat x00 16 ++ firstn 48 seed)
             :: eventsFrom sha1sum 1 shares)).
  split; [apply ingestSeed_ok; lia |].
  rewrite inflight_emptyAcc.
  split; [reflexivity |].
  split; [apply allot_length |].
  split; [apply allot_concat; lia |].
  intros j Hj. split; [| split].
  - rewrite nth_S_cons.
    rewrite eventsFrom_nth by (subst shares; rewrite allot_length; lia).
    reflexivity.
  - pose proof (allot_share_is_ceil 31 rest j Hj) as Hc. cbv zeta in Hc.
    replace (31 - 1 - j)%nat with (30 - j)%nat in Hc by lia. exact Hc.
  - now apply allot_share_length.
Qed.

Lemma NewFortuna_submits_seed_from_byte_80_witness :
  let rest := skipn 80 Instances.seed128 in
  let shares := allot 31 rest in
  exists a,
    ingestSeed (Instances.sumDigest 32) (Instances.sumDigest 20)
      Instances.seed128 = Ok a /\
    inflight a
    = eventBuffer (Instances.sumDigest 20) x00
        (repeat x00 16 ++ firstn 48 Instances.seed128)
      :: eventsFrom (Instances.sumDigest 20) 1 shares /\
    length shares = 31%nat /\
    concat shares = rest.
Proof.
  destruct (NewFortuna_submits_seed_from_byte_80
              (Instances.sumDigest 32) (Instances.sumDigest 20)
              Instances.seed128)
    as (a & Ha & Hin & Hl & Hc & _).
  - vm_compute. discriminate.
  - exists a. repeat split; assumption.
Defined.

(** C1, a defect of the code. Its comment has 48 bytes of the seed fill
    the block of pool 0 and the rest of the seed distributed across the
    remaining pools, but [seed = seed[minPoolSize+16:]] goes on from byte
    80. On the 128-byte seed 00 .. 7f of the tests: 32 events are
    submitted; the event of source 0 carries the SHA-1 digest of 16 zero
    bytes and the bytes 0 to 47 of the seed; the event of source 1
    carries the two bytes 50 51, not the three bytes 40 41 42; the data
    of the events of sources 1 to 31, put end to end, are the bytes 80 to
    127 of the seed, so the bytes 64 to 79 (like the bytes 48 to 63) are
    in no event. Moreover an event is written to the pool [nextPool],
    whatever its source: when the goroutine of the event of source 1 is
    the first to run, its buffer lands in pool 0. *)
Theorem C1_seed_bytes_48_to_79_reach_no_event :
  exists a,
    ingestSeed (Instances.sumDigest 32) (Instances.sumDigest 20)
      Instances.seed128 = Ok a /\
    length (inflight a) = 32%nat /\
    nth 0 (inflight a) []
    = x00 :: x40
      :: Instances.sumDigest 20 (repeat x00 16 ++ firstn 48 Instances.seed128) /\
    nth 1 (inflight a) [] = [x01; x02; x50; x51] /\
    nth 1 (inflight a) []
    <> eventBuffer (Instances.sumDigest 20) x01 [x40; x41; x42] /\
    map (fun b => nth 0 b x00) (inflight a)
    = map (fun i => byte.of_Z (Z.of_nat i)) (seq 0 32) /\
    concat (map (skipn 2) (tl (inflight a))) = skipn 80 Instances.seed128 /\
    concat (map (skipn 2) (tl (inflight a))) <> skipn 64 Instances.seed128 /\
    option_map (fun p => Hash.written (Hash_ p))
      (nth_error (pools (deliver 1 a)) 0)
    = Some [x01; x02; x50; x51].
Proof.
  eexists. split; [apply ingestSeed_ok; vm_compute; lia |].
  split; [vm_compute; reflexivity |].
  split; [vm_compute; reflexivity |].
  split; [vm_compute; reflexivity |].
  split; [vm_compute; discriminate |].
  split; [vm_compute; reflexivity |].
  split; [vm_compute; reflexivity |].
  split; [vm_compute; discriminate |].
  vm_compute; reflexivity.
Qed.
End FortunaFacts.

(* ===================================================================== *)
(** ** Further properties: the counter and the double hash *)
(* ===================================================================== *)

Module CounterMore.
Import Counter CounterFacts.

Lemma value_inj (c1 c2 : counter) :
  length c1 = length c2 -> value c1 = value c2 -> c1 = c2.
Proof. intros Hl Hv. now apply le_combine_inj. Qed.

Lemma pow256_pos (c : counter) : 0 < 256 ^ len c.
Proof. apply Z.pow_pos_nonneg; unfold len; lia. Qed.

(** X1. [incr] is one-to-one on the counters of a given length: two different
    counters never step to the same counter. *)
Theorem incr_injective (c1 c2 : counter) :
  length c1 = length c2 -> incr c1 = incr c2 -> c1 = c2.
Proof.
  intros Hl He. apply value_inj; [exact Hl |].
  apply (f_equal value) in He. rewrite !incr_value in He.
  assert (HM : len c1 = len c2) by (unfold len; now rewrite Hl).
  rewrite <- HM in He.
  pose proof (value_bound c1) as B1. pose proof (value_bound c2) as B2.
  rewrite <- HM in B2.
  pose proof (pow256_pos c1) as HP.
  set (M := 256 ^ len c1) in *.
  destruct (Z.eq_dec (value c1) (M - 1)) as [E1 | N1];
    destruct (Z.eq_dec (value c2) (M - 1)) as [E2 | N2].
  - lia.
  - rewrite E1 in He. replace (M - 1 + 1) with M in He by lia.
    rewrite Z.mod_same, Z.mod_small in He; lia.
  - rewrite E2 in He. replace (M - 1 + 1) with M in He by lia.
    rewrite Z.mod_same, Z.mod_small in He; lia.
  - rewrite !Z.mod_small in He; lia.
Qed.

Lemma incr_injective_witness : incr [xfe; x00] = [xff; x00].
Proof.
  apply (incr_injective (incr [xfe; x00]) [xff; x00]); reflexivity.
Defined.

(** X2. The counter comes back to a value after [n] steps exactly when
    [256^len] divides [n]: a 16-byte counter gives [2^128] different blocks
    before it repeats. *)
Theorem incrN_period (n : nat) (c : counter) :
  incrN n c = c <-> (256 ^ len c | Z.of_nat n).
Proof.
  pose proof (value_bound c) as B. pose proof (pow256_pos c) as HP.
  split.
  - intros He. apply (f_equal value) in He. rewrite incrN_value in He.
    apply Z.mod_divide; [lia |].
    pose proof (Z.div_mod (value c + Z.of_nat n) (256 ^ len c)) as Hd.
    rewrite He in Hd. specialize (Hd ltac:(lia)).
    assert (Hn : Z.of_nat n
                 = 256 ^ len c * ((value c + Z.of_nat n) / 256 ^ len c))
      by lia.
    rewrite Hn, Z.mul_comm. apply Z.mod_mul. lia.
  - intros [q Hq]. apply value_inj; [apply incrN_length |].
    rewrite incrN_value, Hq, Z.mod_add by lia.
    apply Z.mod_small. exact B.
Qed.
Lemma incrN_period_witness : incrN 256 [x07] = [x07].
Proof.
  apply (proj2 (incrN_period 256 [x07])).
  exists 1. reflexivity.
Defined.
End CounterMore.

Module DoubleHashMore.
Import DoubleHashFacts.

(** X3. [DoubleHash] returns on every handle whose block size is at most 256
    and panics, on the slice [zeros[:b]], on every other handle, whatever
    the segments and the state of the handle. *)
Theorem DoubleHash_panics_iff_block_over_256 h segments :
  (DoubleHash h segments = Panic SliceBounds
   <-> (256 < Hash.BlockSize (Hash.alg h))%nat) /\
  ((exists d h', DoubleHash h segments = Ok (d, h'))
   <-> (Hash.BlockSize (Hash.alg h) <= 256)%nat).
Proof.
  destruct (Nat.le_gt_cases (Hash.BlockSize (Hash.alg h)) 256) as [Hle | Hgt].
  - pose proof (DoubleHash_ok h segments Hle) as Hok. cbv zeta in Hok.
    split; split; intros H.
    + rewrite Hok in H. discriminate.
    + lia.
    + exact Hle.
    + eexists. eexists. exact Hok.
  - pose proof (DoubleHash_panic h segments Hgt) as Hp.
    split; split; intros H.
    + exact Hgt.
    + exact Hp.
    + destruct H as (d & h' & H). rewrite Hp in H. discriminate.
    + lia.
Qed.

Lemma DoubleHash_panics_iff_block_over_256_witness :
  DoubleHash (Hash.New (Instances.sumHash 32 300)) [[x01]; [x02]]
  = Panic SliceBounds.
Proof.
  apply (proj2 (proj1 (DoubleHash_panics_iff_block_over_256
                         (Hash.New (Instances.sumHash 32 300))
                         [[x01]; [x02]]))).
  cbn. lia.
Defined.

(** X4. The result of [DoubleHash], and the state it leaves the handle in,
    depend on the algorithm and on the concatenation of the segments only:
    not on what had been written to the handle before, nor on where the
    segments are cut. *)
Theorem DoubleHash_ignores_state_and_cuts h1 h2 segs1 segs2 :
  Hash.alg h1 = Hash.alg h2 ->
  concat segs1 = concat segs2 ->
  DoubleHash h1 segs1 = DoubleHash h2 segs2.
Proof.
  intros Ha Hc.
  destruct (Nat.le_gt_cases (Hash.BlockSize (Hash.alg h1)) 256) as [Hle | Hgt].
  - rewrite (DoubleHash_ok h1 segs1 Hle).
    rewrite Ha in Hle. rewrite (DoubleHash_ok h2 segs2 Hle).
    now rewrite Ha, Hc.
  - rewrite (DoubleHash_panic h1 segs1 Hgt).
    rewrite Ha in Hgt. now rewrite (DoubleHash_panic h2 segs2 Hgt).
Qed.

Lemma DoubleHash_ignores_state_and_cuts_witness :
  let a := Instances.sumHash 32 64 in
  DoubleHash (Hash.New a) [[x01; x02]; [x03]]
  = DoubleHash {| Hash.alg := a; Hash.written := [xff] |} [[x01]; []; [x02; x03]].
Proof.
  apply (DoubleHash_ignores_state_and_cuts
           (Hash.New (Instances.sumHash 32 64))
           {| Hash.alg := Instances.sumHash 32 64; Hash.written := [xff] |}
           [[x01; x02]; [x03]] [[x01]; []; [x02; x03]]);
    reflexivity.
Defined.
End DoubleHashMore.

(* ===================================================================== *)
(** ** Further properties: the generator *)
(* ===================================================================== *)

Module GeneratorMore.
Import Counter Generator GeneratorSpec MoreSpec.
Import CounterFacts GeneratorFacts GeneratorClaims.

Lemma incrN_add a b c : incrN (a + b) c = incrN b (incrN a c).
Proof.
  revert c. induction a as [| a IH]; intros c; [reflexivity |].
  cbn [Nat.add incrN]. apply IH.
Qed.

Lemma keystream_app E k a b c :
  keystream E k (a + b) c
  = keystream E k a c ++ keystream E k b (incrN a c).
Proof.
  revert c. induction a as [| a IH]; intros c; [reflexivity |].
  cbn [Nat.add keystream incrN]. now rewrite IH, app_assoc.
Qed.

Lemma keystream_prefix E k a b c n :
  blockLaw E -> (a <= b)%nat -> (n <= 16 * a)%nat ->
  firstn n (keystream E k b c) = firstn n (keystream E k a c).
Proof.
  intros HE Hab Hn. replace b with (a + (b - a))%nat by lia.
  rewrite keystream_app, firstn_app, (keystream_length E HE).
  replace (n - 16 * a)%nat with 0%nat by lia. cbn [firstn].
  now rewrite app_nil_r.
Qed.

Lemma blocksFor_mono n m : (n <= m)%nat -> (blocksFor n <= blocksFor m)%nat.
Proof. intros H. unfold blocksFor. apply Nat.Div0.div_le_mono. lia. Qed.

(** [Write] returns only when [DoubleHash] does, and then as [afterWrite]. *)
Lemma Write_inv g data r g' :
  Write g data = Ok (r, g') ->
  (Hash.BlockSize (Hash.alg (h g)) <= 256)%nat /\
  r = (len data, None) /\ g' = afterWrite g data.
Proof.
  intros HW.
  destruct (Nat.le_gt_cases (Hash.BlockSize (Hash.alg (h g))) 256) as [Hle | Hgt].
  - rewrite Write_ok in HW by exact Hle. inversion HW. auto.
  - rewrite Write_panic in HW by exact Hgt. discriminate.
Qed.

(** What a [Read] that returns says about the state it started from. *)
Lemma Read_inv E g data r d g' :
  blockLaw E -> wf g ->
  Generator.Read E g data = Ok (r, d, g') ->
  (initialized g = false /\ r = (0, Some ErrNotSeeded) /\ d = data /\ g' = g)
  \/ (initialized g = true /\ validKeySize (Hash.Size (Hash.alg (h g))) /\
      snd r = None /\
      g' = afterRead E g (Nat.min (length data)
                            (Z.to_nat (maxBytesPerRequest g)))).
Proof.
  intros HE Hwf HR.
  destruct (initialized g) eqn:Hi.
  - right.
    assert (Hv : validKeySize (Hash.Size (Hash.alg (h g)))).
    { rewrite <- (wf_key g Hwf).
      destruct (AES.NewCipher (key g)) eqn:Ec.
      - unfold AES.NewCipher, len in Ec. unfold validKeySize.
        destruct (Z.eqb_spec (Z.of_nat (length (key g))) 16); [lia |].
        destruct (Z.eqb_spec (Z.of_nat (length (key g))) 24); [lia |].
        destruct (Z.eqb_spec (Z.of_nat (length (key g))) 32); [lia |].
        discriminate.
      - exfalso. unfold Generator.Read in HR. rewrite Hi in HR.
        cbn [negb] in HR.
        rewrite Read_view in HR by (rewrite (wf_max g Hwf); lia).
        cbn [bind] in HR. rewrite Ec in HR. discriminate. }
    rewrite (Read_ok E HE g data Hwf Hi Hv) in HR. inversion HR.
    repeat split; auto.
  - left. unfold Generator.Read in HR. rewrite Hi in HR. cbn [negb] in HR.
    inversion HR. auto.
Qed.

Lemma afterRead_frame E g n :
  h (afterRead E g n) = h g /\
  initialized (afterRead E g n) = initialized g /\
  maxBytesPerRequest (afterRead E g n) = maxBytesPerRequest g.
Proof. repeat split. Qed.

(** X5. Every generator state a program can reach from [newGenerator] by
    [Write] and [Read] calls that returned has a key of [Size()] bytes, a
    16-byte counter, a scratch block of [Size()] bytes and
    [maxBytesPerRequest = 2^15 * Size()], when digests have [Size()] bytes
    and blocks 16. *)
Theorem reachable_generator_is_well_formed E sha256 g :
  blockLaw E ->
  reachable E sha256 g ->
  lawful (Hash.alg (h g)) ->
  Z.of_nat (Hash.Size (Hash.alg (h g))) < 2 ^ 48 ->
  wf g.
Proof.
  intros HE Hr. induction Hr as
    [h0 seed g Hnew | g data r g' Hr IH HW | g data r data' g' Hr IH HR];
    intros Hlaw Hsz.
  - destruct seed as [| b seed].
    + rewrite newGenerator_empty in Hnew. inversion Hnew; subst g.
      now apply fresh_wf.
    + rewrite newGenerator_seed in Hnew by discriminate.
      destruct (Write _ (b :: seed)) as [[r g1] |] eqn:HW; [| discriminate].
      cbn [bind] in Hnew. inversion Hnew; subst g1.
      apply Write_inv in HW. destruct HW as (_ & _ & ->).
      apply afterWrite_wf; [exact Hlaw | apply fresh_wf; exact Hsz].
  - apply Write_inv in HW. destruct HW as (_ & _ & ->).
    apply afterWrite_wf; [exact Hlaw | apply IH; assumption].
  - assert (Hh : h g' = h g).
    { unfold Generator.Read in HR.
      destruct (initialized g); cbn [negb] in HR;
        [| inversion HR; reflexivity].
      destruct (if len data >? maxBytesPerRequest g
                then Slice.to data (maxBytesPerRequest g) else Ok data)
        as [view |]; [| discriminate].
      cbn [bind] in HR.
      destruct (AES.NewCipher (key g)) as [c |]; [| discriminate].
      destruct (generateBlocks E g c view) as [[g1 v1] |] eqn:E1;
        [| discriminate].
      cbn [bind] in HR.
      destruct (generateBlocks E g1 c (key g1)) as [[g2 k2] |] eqn:E2;
        [| discriminate].
      cbn [bind] in HR. inversion HR. cbn [h].
      assert (Hframe : forall g0 out g3 out3,
                generateBlocks E g0 c out = Ok (g3, out3) -> h g3 = h g0).
      { clear. intros g0 out g3 out3 Hg. unfold generateBlocks in Hg.
        destruct (fullBlocksLoop E _ 0 c AES.BlockSize (counter g0) out)
          as [[ctr out1] |]; [| discriminate].
        cbn [bind] in Hg.
        destruct (negb (len out1 mod AES.BlockSize =? 0)).
        - destruct (AES.Encrypt E c (temp g0) ctr); [| discriminate].
          cbn [bind] in Hg.
          destruct (Slice.from out1 _); [| discriminate].
          cbn [bind] in Hg. inversion Hg. reflexivity.
        - inversion Hg. reflexivity. }
      rewrite (Hframe _ _ _ _ E2). apply (Hframe _ _ _ _ E1). }
    rewrite Hh in Hlaw, Hsz. specialize (IH Hlaw Hsz).
    destruct (Read_inv E g data r data' g' HE IH HR)
      as [(_ & _ & _ & ->) | (_ & Hv & _ & ->)]; [exact IH |].
    now apply afterRead_wf.
Qed.

Lemma reachable_generator_is_well_formed_witness :
  let a := Instances.sumHash 32 64 in
  wf (afterWrite (afterWrite (fresh (Hash.New a)) [x00]) [x01; x02]).
Proof.
  apply (reachable_generator_is_well_formed Instances.xorBlock
           (Instances.sumHash 32 64)).
  - exact xorBlock_law.
  - eapply reach_write with (data := [x01; x02]).
    + eapply reach_new with (h0 := None) (seed := [x00]).
      rewrite newGenerator_seed by discriminate.
      rewrite Write_ok by (cbn; lia). reflexivity.
    + apply Write_ok. cbn. lia.
  - apply sumHash_lawful.
  - reflexivity.
Defined.

(** X7. What [Read] does to the key and the counter: after [n] bytes of output
    the counter has been stepped once per output block and once per key
    block, and the new key is the keystream, still under the old key, that
    follows the output blocks. The hash, the cap and [initialized] are
    kept. *)
Theorem Read_rekeys_after_the_output E g data :
  blockLaw E -> wf g -> initialized g = true ->
  validKeySize (Hash.Size (Hash.alg (h g))) ->
  let size := Hash.Size (Hash.alg (h g)) in
  let n := Nat.min (length data) (Z.to_nat (maxBytesPerRequest g)) in
  exists r data' g',
    Generator.Read E g data = Ok (r, data', g') /\
    key g'
    = firstn size (keystream E (key g) (blocksFor size)
                     (incrN (blocksFor n) (counter g))) /\
    counter g' = incrN (blocksFor n + blocksFor size) (counter g) /\
    h g' = h g /\
    maxBytesPerRequest g' = maxBytesPerRequest g /\
    initialized g' = true.
Proof.
  intros HE Hwf Hi Hv size n.
  eexists. eexists. exists (afterRead E g n).
  split; [apply (Read_ok E HE g data Hwf Hi Hv) |].
  pose proof (wf_key g Hwf) as Hk.
  split; [cbn [afterRead key afterBlocks counter]; now rewrite Hk |].
  split; [cbn [afterRead counter afterBlocks key]; rewrite Hk;
          now rewrite incrN_add |].
  split; [reflexivity |]. split; [reflexivity | exact Hi].
Qed.

Lemma seeded32_ready :
  let g := Instances.seeded (Instances.sumHash 32 64) [x00] in
  wf g /\ initialized g = true /\
  validKeySize (Hash.Size (Hash.alg (h g))).
Proof.
  pose proof (seeded_wf (Instances.sumHash 32 64) [x00]
                (sumHash_lawful 32 64)) as Hs.
  destruct Hs as (Hwf & Hinit & Halg);
    [cbn; lia | cbn; lia | discriminate |].
  cbv zeta. split; [exact Hwf | split; [exact Hinit |]].
  rewrite Halg. right. right. reflexivity.
Qed.

(** X6. [generateBlocks] fills [out] with the next [len(out)] bytes of the
    keystream of the cipher, starting at the counter, and steps the counter
    once per block it encrypted, the partial last block included; the key,
    the hash, the cap and [initialized] are kept, the scratch block is
    written only for a partial block, and an empty [out] changes nothing. *)
Theorem generateBlocks_writes_keystream E g c out :
  blockLaw E -> length (counter g) = 16%nat -> (16 <= length (temp g))%nat ->
  exists g',
    generateBlocks E g c out
    = Ok (g', firstn (length out)
                (keystream E (AES.cipherKey c) (blocksFor (length out))
                   (counter g))) /\
    counter g' = incrN (blocksFor (length out)) (counter g) /\
    key g' = key g /\ h g' = h g /\
    initialized g' = initialized g /\
    maxBytesPerRequest g' = maxBytesPerRequest g /\
    length (temp g') = length (temp g) /\
    ((length out mod 16 = 0)%nat -> temp g' = temp g) /\
    (out = [] -> g' = g).
Proof.
  intros HE Hc Ht. exists (afterBlocks E g c (length out)).
  split; [now apply generateBlocks_ok |].
  split; [reflexivity |]. split; [reflexivity |]. split; [reflexivity |].
  split; [reflexivity |]. split; [reflexivity |].
  split; [now apply afterBlocks_temp_length |].
  split.
  - intros Hm. cbn [afterBlocks temp]. now rewrite Hm.
  - intros ->. now destruct g.
Qed.

Lemma generateBlocks_writes_keystream_witness :
  let g := Instances.seeded (Instances.sumHash 32 64) [x00] in
  let c := {| AES.cipherKey := key g |} in
  exists g',
    generateBlocks Instances.xorBlock g c (Slice.make 20)
    = Ok (g', firstn 20 (keystream Instances.xorBlock (key g) 2 (counter g))) /\
    counter g' = incrN 2 (counter g).
Proof.
  destruct seeded32_ready as (Hwf & Hi & Hv).
  destruct (generateBlocks_writes_keystream Instances.xorBlock
              (Instances.seeded (Instances.sumHash 32 64) [x00])
              {| AES.cipherKey :=
                   key (Instances.seeded (Instances.sumHash 32 64) [x00]) |}
              (Slice.make 20) xorBlock_law (wf_counter _ Hwf))
    as (g' & Hg & Hc & _).
  - rewrite (wf_temp _ Hwf).
    destruct Hv as [-> | [-> | ->]]; lia.
  - exists g'. split; assumption.
Defined.


Lemma Read_rekeys_after_the_output_witness :
  let g := Instances.seeded (Instances.sumHash 32 64) [x00] in
  exists r data' g',
    Generator.Read Instances.xorBlock g (Slice.make 20) = Ok (r, data', g') /\
    counter g' = incrN (2 + 2) (counter g).
Proof.
  destruct seeded32_ready as (Hwf & Hi & Hv).
  destruct (Read_rekeys_after_the_output Instances.xorBlock
              (Instances.seeded (Instances.sumHash 32 64) [x00])
              (Slice.make 20) xorBlock_law Hwf Hi Hv)
    as (r & d & g' & HR & _ & Hc & _).
  exists r, d, g'. split; [exact HR |].
  rewrite Hc. f_equal.
Defined.

Lemma output_ok E g n :
  blockLaw E -> wf g -> initialized g = true ->
  validKeySize (Hash.Size (Hash.alg (h g))) ->
  let m := Nat.min n (Z.to_nat (maxBytesPerRequest g)) in
  output E g n
  = Ok (firstn m (keystream E (key g) (blocksFor m) (counter g))
          ++ repeat x00 (n - m)).
Proof.
  intros HE Hwf Hi Hv m. unfold output.
  rewrite (Read_ok E HE g (Slice.make n) Hwf Hi Hv). cbn [bind].
  unfold Slice.make. rewrite repeat_length. fold m.
  do 2 f_equal.
  replace n with (m + (n - m))%nat at 1 by lia.
  rewrite repeat_app, skipn_app, repeat_length, Nat.sub_diag.
  rewrite skipn_all2 by (rewrite repeat_length; lia).
  reflexivity.
Qed.

(** X8. From one state, a shorter request gets a prefix of what a longer one
    gets: the bytes a [Read] returns do not depend on how many were asked
    for. (The states after the two reads differ.) *)
Theorem shorter_Read_is_prefix_of_longer E g n m :
  blockLaw E -> wf g -> initialized g = true ->
  validKeySize (Hash.Size (Hash.alg (h g))) ->
  (n <= m)%nat ->
  exists dn dm,
    output E g n = Ok dn /\ output E g m = Ok dm /\ dn = firstn n dm.
Proof.
  intros HE Hwf Hi Hv Hnm.
  rewrite (output_ok E g n HE Hwf Hi Hv), (output_ok E g m HE Hwf Hi Hv).
  cbv zeta. set (M := Z.to_nat (maxBytesPerRequest g)).
  eexists. eexists. split; [reflexivity | split; [reflexivity |]].
  assert (Hlen : forall q, length (firstn (Nat.min q M)
                   (keystream E (key g) (blocksFor (Nat.min q M)) (counter g)))
                 = Nat.min q M).
  { intros q. rewrite length_firstn, (keystream_length E HE).
    pose proof (blocksFor_covers (Nat.min q M)). lia. }
  rewrite firstn_app, Hlen, firstn_firstn.
  destruct (Nat.le_gt_cases n M) as [HnM | HnM].
  - replace (Nat.min n M) with n by lia.
    replace (n - n)%nat with 0%nat by lia. cbn [repeat].
    replace (n - Nat.min m M)%nat with 0%nat by lia. cbn [firstn].
    rewrite !app_nil_r.
    replace (Nat.min n (Nat.min m M)) with n by lia.
    symmetry. apply keystream_prefix; [exact HE | | apply blocksFor_covers].
    apply blocksFor_mono. lia.
  - replace (Nat.min n M) with M by lia.
    replace (Nat.min m M) with M by lia.
    replace (Nat.min n M) with M by lia.
    f_equal.
    replace (m - M)%nat with ((n - M) + (m - n))%nat by lia.
    rewrite repeat_app, firstn_app, repeat_length, Nat.sub_diag.
    cbn [firstn]. rewrite app_nil_r.
    rewrite firstn_all2 by (rewrite repeat_length; lia). reflexivity.
Qed.

Lemma shorter_Read_is_prefix_of_longer_witness :
  let g := Instances.seeded (Instances.sumHash 32 64) [x00] in
  exists dn dm,
    output Instances.xorBlock g 5 = Ok dn /\
    output Instances.xorBlock g 40 = Ok dm /\ dn = firstn 5 dm.
Proof.
  destruct seeded32_ready as (Hwf & Hi & Hv).
  apply (shorter_Read_is_prefix_of_longer Instances.xorBlock
           (Instances.seeded (Instances.sumHash 32 64) [x00]) 5 40
           xorBlock_law Hwf Hi Hv).
  lia.
Defined.

(** X9. The three outcomes of [Read] on a well-formed generator are decided by
    the state alone: the error "Generator is not seeded", with nothing
    changed, exactly when [initialized] is false; a panic on the key size
    exactly when it is seeded over a hash whose output is not an AES key
    length; and otherwise [min(len(buf), maxBytesPerRequest)] with no
    error. *)
Theorem Read_outcome_is_decided_by_the_state E g data :
  blockLaw E -> wf g ->
  let valid := validKeySize (Hash.Size (Hash.alg (h g))) in
  (Generator.Read E g data = Ok ((0, Some ErrNotSeeded), data, g)
   <-> initialized g = false) /\
  (Generator.Read E g data = Panic BadKeySize
   <-> initialized g = true /\ ~ valid) /\
  ((exists data' g',
      Generator.Read E g data
      = Ok ((Z.min (len data) (maxBytesPerRequest g), None), data', g'))
   <-> initialized g = true /\ valid).
Proof.
  intros HE Hwf valid. subst valid.
  pose proof (wf_max g Hwf) as Hmax. pose proof (wf_key g Hwf) as Hkey.
  assert (Hdec : validKeySize (Hash.Size (Hash.alg (h g)))
                 \/ ~ validKeySize (Hash.Size (Hash.alg (h g))))
    by (unfold validKeySize; lia).
  destruct (initialized g) eqn:Hi.
  - destruct Hdec as [Hv | Hnv].
    + pose proof (Read_ok E HE g data Hwf Hi Hv) as HR. cbv zeta in HR.
      rewrite HR.
      split; [split; [intros H; inversion H | discriminate] |].
      split; [split; [discriminate | intros [_ H]; contradiction] |].
      split; [intros _; split; [reflexivity | exact Hv] |].
      intros _.
      replace (Z.min (len data) (maxBytesPerRequest g))
        with (Z.of_nat (Nat.min (length data)
                          (Z.to_nat (maxBytesPerRequest g))))
        by (unfold len; lia).
      eexists. eexists. reflexivity.
    + assert (HR : Generator.Read E g data = Panic BadKeySize).
      { unfold Generator.Read. rewrite Hi. cbn [negb].
        rewrite Read_view by lia. cbn [bind].
        rewrite NewCipher_invalid; [reflexivity | now rewrite Hkey]. }
      rewrite HR.
      split; [split; discriminate |].
      split; [split; [intros _; split; [reflexivity | exact Hnv]
                     | reflexivity] |].
      split; [intros (d & g' & H); discriminate
             | intros [_ H]; contradiction].
  - assert (HR : Generator.Read E g data
                 = Ok ((0, Some ErrNotSeeded), data, g)).
    { unfold Generator.Read. now rewrite Hi. }
    rewrite HR.
    split; [split; reflexivity |].
    split; [split; [discriminate | intros [H _]; discriminate] |].
    split; [intros (d & g' & H); inversion H | intros [H _]; discriminate].
Qed.

Lemma Read_outcome_is_decided_by_the_state_witness :
  let g := Instances.seeded (Instances.sumHash 32 64) [x00] in
  (exists data' g',
      Generator.Read Instances.xorBlock g (Slice.make 3)
      = Ok ((Z.min (len (Slice.make 3)) (maxBytesPerRequest g), None), data', g'))
  <-> initialized g = true /\ validKeySize (Hash.Size (Hash.alg (h g))).
Proof.
  destruct seeded32_ready as (Hwf & Hi & Hv).
  apply (Read_outcome_is_decided_by_the_state Instances.xorBlock
           (Instances.seeded (Instances.sumHash 32 64) [x00])
           (Slice.make 3) xorBlock_law Hwf).
Defined.
End GeneratorMore.

(* ===================================================================== *)
(** ** Further properties: events, pools and the reseed gate *)
(* ===================================================================== *)

Module FortunaMore.
Import Counter Generator GeneratorSpec Fortuna FortunaSpec FortunaRead MoreSpec.
Import GeneratorFacts GeneratorClaims FortunaFacts GeneratorMore.

Lemma upd_head {A} (x y : A) l : List.upd (x :: l) 0 y = y :: l.
Proof.
  unfold List.upd, List.upds. cbn [firstn length app skipn Nat.add].
  rewrite Nat.sub_0_r. cbn [firstn app]. now rewrite firstn_nil.
Qed.

Lemma upd_second {A} (x y z : A) l : List.upd (x :: y :: l) 1 z = x :: z :: l.
Proof.
  unfold List.upd, List.upds. cbn [firstn length app skipn Nat.add Nat.sub].
  now rewrite firstn_nil.
Qed.

Lemma eventBuffer_small sha1sum source data :
  len data <= 32 ->
  eventBuffer sha1sum source data = source :: byte.of_Z (len data) :: data.
Proof.
  intros H. unfold eventBuffer.
  replace (len data >? 32) with false
    by (symmetry; rewrite Z.gtb_ltb; apply Z.ltb_ge; lia).
  cbn [Slice.make repeat app]. now rewrite upd_head, upd_second.
Qed.

Lemma eventBuffer_large sha1sum source data :
  32 < len data ->
  eventBuffer sha1sum source data
  = source :: byte.of_Z (len data) :: sha1sum data.
Proof.
  intros H. unfold eventBuffer.
  replace (len data >? 32) with true
    by (symmetry; rewrite Z.gtb_ltb; apply Z.ltb_lt; lia).
  cbn [Hash.New Hash.Write Hash.Sum Hash.sha1 Hash.alg Hash.written
       Hash.digest Slice.make repeat app].
  now rewrite upd_head, upd_second.
Qed.

Lemma eventBuffer_length sha1sum source data :
  (forall m, length (sha1sum m) = 20%nat) ->
  (2 <= length (eventBuffer sha1sum source data) <= 34)%nat.
Proof.
  intros Hsha. destruct (Z.le_gt_cases (len data) 32) as [H | H].
  - rewrite eventBuffer_small by exact H. cbn [length]. unfold len in H. lia.
  - rewrite eventBuffer_large by lia. cbn [length]. rewrite Hsha. lia.
Qed.

(** X10. The buffer of an event: the source, the length of the data cut to a
    byte, then the data itself when it has at most 32 bytes and its SHA-1
    digest otherwise. With 20-byte digests an event puts at most 34 bytes
    in a pool. *)
Theorem eventBuffer_frame sha1sum source data :
  (len data <= 32 ->
   eventBuffer sha1sum source data
   = source :: byte.of_Z (len data) :: data) /\
  (32 < len data ->
   eventBuffer sha1sum source data
   = source :: byte.of_Z (len data) :: sha1sum data) /\
  ((forall m, length (sha1sum m) = 20%nat) ->
   (2 <= length (eventBuffer sha1sum source data) <= 34)%nat).
Proof.
  split; [apply eventBuffer_small |].
  split; [apply eventBuffer_large | apply eventBuffer_length].
Qed.

Lemma eventBuffer_frame_witness :
  eventBuffer (Instances.sumDigest 20) x07 [x01; x02; x03]
  = [x07; x03; x01; x02; x03].
Proof.
  apply (proj1 (eventBuffer_frame (Instances.sumDigest 20) x07 [x01; x02; x03])).
  vm_compute. discriminate.
Defined.

(** *** The byte count of a pool *)

Lemma countedWrite_counted p data :
  counted p -> length_ p + len data <= maxInt ->
  counted (fst (countedWrite p data)) /\
  Hash.written (Hash_ (fst (countedWrite p data)))
  = Hash.written (Hash_ p) ++ data.
Proof.
  unfold counted. intros Hc Hb. cbn [countedWrite Hash.Write fst Hash_ length_ Hash.written].
  split; [| reflexivity].
  rewrite wrapInt_small.
  - rewrite Hc. unfold len. rewrite length_app. lia.
  - unfold maxInt, intBits in Hb. change (64 - 1) with 63 in Hb.
    rewrite Hc in *. unfold len in *. lia.
Qed.

Lemma countedReset_counted p : counted (countedReset p).
Proof. reflexivity. Qed.

(** [reseed] in closed form. *)
Lemma reseed_eq a now :
  wfAcc a ->
  let n' := wrapInt (numReseed a + 1) in
  let k := selected n' in
  let seed := concat (map digestOf (firstn k (pools a))) in
  reseed a now
  = Ok {| numReseed := n';
          nextPool := nextPool a;
          lastReseed := now;
          generator_ := afterWrite (generator_ a) seed;
          pools := map countedReset (firstn k (pools a)) ++ skipn k (pools a);
          inflight := inflight a |}
  /\ (1 <= k <= 32)%nat.
Proof.
  intros [Hpools Hnext Hblock] n' k seed.
  change (Z.to_nat numPools) with 32%nat in Hpools.
  pose proof (reseedLoop_spec (pools a) n' 32 0 eq_refl Hpools) as Hloop.
  cbn [firstn skipn map concat app Z.of_nat Nat.add] in Hloop.
  change (Z.ones 0) with 0 in Hloop.
  destruct (selectedFrom_spec 32 0 n') as [Hle Hiff]; [intros j Hj; lia |].
  cbn [Nat.add] in Hle, Hiff.
  change (selectedFrom 32 0 n') with k in Hle, Hiff, Hloop.
  cbv zeta in Hloop. fold seed in Hloop.
  split.
  - unfold reseed. cbv zeta.
    change (Z.to_nat numPools) with 32%nat. fold n'. rewrite Hloop.
    rewrite Write_ok by (rewrite Hblock; lia). reflexivity.
  - split; [| lia]. apply (Hiff 0%nat); [lia |]. apply Z.divide_1_l.
Qed.

Lemma In_firstn {A} (x : A) n l : In x (firstn n l) -> In x l.
Proof.
  intros H. rewrite <- (firstn_skipn n l). apply in_or_app. now left.
Qed.

Lemma In_skipn {A} (x : A) n l : In x (skipn n l) -> In x l.
Proof.
  intros H. rewrite <- (firstn_skipn n l). apply in_or_app. now right.
Qed.

Lemma In_upd {A} (x y : A) i l : In y (List.upd l i x) -> y = x \/ In y l.
Proof.
  unfold List.upd, List.upds. intros H.
  apply in_app_or in H. destruct H as [H | H];
    [right; eapply In_firstn; exact H |].
  apply in_app_or in H. destruct H as [H | H].
  - apply In_firstn in H. destruct H as [<- | []]. now left.
  - right. eapply In_skipn. exact H.
Qed.

(** What a goroutine does when it is in flight: its buffer goes to the
    pool [nextPool], which then moves on by one. *)
Lemma deliver_eq k a :
  wfAcc a -> (k < length (inflight a))%nat ->
  exists buffer p,
    nth_error (inflight a) k = Some buffer /\
    nth_error (pools a) (Z.to_nat (nextPool a)) = Some p /\
    deliver k a
    = {| numReseed := numReseed a;
         nextPool := (nextPool a + 1) mod numPools;
         lastReseed := lastReseed a;
         generator_ := generator_ a;
         pools := List.upd (pools a) (Z.to_nat (nextPool a))
                    (fst (countedWrite p buffer));
         inflight := firstn k (inflight a) ++ skipn (S k) (inflight a) |}.
Proof.
  intros [Hp Hn Hb] Hk. unfold deliver.
  destruct (nth_error (inflight a) k) as [buffer |] eqn:Eb.
  2:{ apply nth_error_None in Eb. lia. }
  destruct (nth_error (pools a) (Z.to_nat (nextPool a))) as [p |] eqn:Ep.
  2:{ apply nth_error_None in Ep. unfold numPools in *.
      change (Z.to_nat 32) with 32%nat in Hp. lia. }
  exists buffer, p. repeat split.
Qed.

(** X11. [length] stays the number of bytes written to a pool since its last
    reset, through the goroutines and the reseeds, as long as the count
    fits an [int]. *)
Theorem pools_count_their_bytes a :
  wfAcc a ->
  Forall counted (pools a) ->
  (forall k,
     (k < length (inflight a))%nat ->
     (forall p buffer, In p (pools a) -> In buffer (inflight a) ->
                       length_ p + len buffer <= maxInt) ->
     Forall counted (pools (deliver k a))) /\
  (forall now a', reseed a now = Ok a' -> Forall counted (pools a')).
Proof.
  intros Hwf Hc. split.
  - intros k Hk Hbound.
    destruct (deliver_eq k a Hwf Hk) as (buffer & p & Eb & Ep & ->).
    cbn [pools]. apply Forall_forall. intros q Hq.
    apply In_upd in Hq. destruct Hq as [-> | Hq].
    + apply countedWrite_counted.
      * rewrite Forall_forall in Hc. apply Hc. eapply nth_error_In; exact Ep.
      * apply Hbound; eapply nth_error_In; eassumption.
    + rewrite Forall_forall in Hc. now apply Hc.
  - intros now a' Hr.
    destruct (reseed_eq a now Hwf) as [Ha' _]. rewrite Ha' in Hr.
    inversion Hr; subst a'. cbn [pools].
    apply Forall_app. split.
    + apply Forall_forall. intros q Hq. apply in_map_iff in Hq.
      destruct Hq as (q0 & <- & _). apply countedReset_counted.
    + apply Forall_forall. intros q Hq. rewrite Forall_forall in Hc.
      apply Hc. eapply In_skipn; exact Hq.
Qed.

Lemma accAfter_wf n : wfAcc (Instances.accAfter n).
Proof. constructor; [reflexivity | cbv; split; congruence | reflexivity]. Qed.

Lemma pools_count_their_bytes_witness :
  Forall counted
    (pools (deliver 0 (withInflight (Instances.accAfter 3) [[x09]]))).
Proof.
  assert (Hwf : wfAcc (withInflight (Instances.accAfter 3) [[x09]]))
    by (constructor; [reflexivity | cbv; split; congruence | reflexivity]).
  assert (Hc : Forall counted
                 (pools (withInflight (Instances.accAfter 3) [[x09]]))).
  { apply Forall_forall. intros p Hp.
    apply repeat_spec in Hp. subst p. reflexivity. }
  apply (proj1 (pools_count_their_bytes
                  (withInflight (Instances.accAfter 3) [[x09]]) Hwf Hc)).
  - cbn. lia.
  - intros p buffer Hp Hb. apply repeat_spec in Hp. subst p.
    destruct Hb as [<- | []]. vm_compute. discriminate.
Defined.

(** X12. The pools are served in turn: after [m] goroutines have run, whichever
    they are, [nextPool] has moved on by [m] modulo 32 and [m] buffers have
    left the flight; the reseed count, the time of the last reseed and the
    generator are untouched. *)
Theorem goroutines_serve_pools_round_robin sched : forall a,
  wfAcc a ->
  validSched (length (inflight a)) sched ->
  let a' := runGoroutines sched a in
  nextPool a' = (nextPool a + len sched) mod numPools /\
  length (inflight a') = (length (inflight a) - length sched)%nat /\
  numReseed a' = numReseed a /\
  lastReseed a' = lastReseed a /\
  generator_ a' = generator_ a.
Proof.
  induction sched as [| k sched IH]; intros a Hwf Hv; cbv zeta.
  - cbn [runGoroutines fold_left len length Z.of_nat].
    rewrite Z.add_0_r, Nat.sub_0_r.
    split; [| repeat split].
    symmetry. apply Z.mod_small. apply (wf_nextPool a Hwf).
  - destruct Hv as [Hk Hv].
    change (runGoroutines (k :: sched) a)
      with (runGoroutines sched (deliver k a)).
    destruct (deliver_inv k a Hwf) as (Hwf' & _).
    destruct (deliver_eq k a Hwf Hk) as (buffer & p & Eb & Ep & Hd).
    assert (Hlen : length (inflight (deliver k a))
                   = (length (inflight a) - 1)%nat).
    { rewrite Hd. cbn [inflight].
      rewrite length_app, length_firstn, length_skipn. lia. }
    rewrite <- Hlen in Hv.
    destruct (IH (deliver k a) Hwf' Hv) as (Hn & Hl & Hr & Ht & Hg).
    rewrite Hn, Hl, Hr, Ht, Hg, Hlen. rewrite Hd.
    cbn [nextPool numReseed lastReseed generator_].
    split; [| split; [cbn [length]; lia | repeat split]].
    unfold numPools, len. cbn [length].
    rewrite Zplus_mod_idemp_l. f_equal. lia.
Qed.

Lemma goroutines_serve_pools_round_robin_witness :
  let a := withInflight (Instances.accAfter 0) [[x01]; [x02]; [x03]] in
  nextPool (runGoroutines [2%nat; 0%nat] a) = 2.
Proof.
  destruct (goroutines_serve_pools_round_robin [2%nat; 0%nat]
              (withInflight (Instances.accAfter 0) [[x01]; [x02]; [x03]]))
    as (Hn & _).
  - constructor; [reflexivity | cbv; split; congruence | reflexivity].
  - cbn. lia.
  - exact Hn.
Defined.

(** *** NewFortuna and the order of the goroutines *)

Lemma NewFortuna_unfold sha256sum sha1sum now sched seed :
  128 <= len seed ->
  NewFortuna sha256sum sha1sum now sched seed
  = (a <- reseed
            (runGoroutines sched
               (withInflight (emptyAcc sha256sum)
                  (eventBuffer sha1sum x00 (repeat x00 16 ++ firstn 48 seed)
                   :: eventsFrom sha1sum 1 (allot 31 (skipn 80 seed)))))
            now ;;
     Ok (inl a)).
Proof.
  intros Hs. unfold NewFortuna, minPoolSize.
  replace (len seed <? 2 * 64) with false by (symmetry; apply Z.ltb_ge; lia).
  rewrite ingestSeed_ok by (unfold len in Hs; lia). reflexivity.
Qed.

(** X13. When none of its goroutines has taken the lock before the constructor
    reseeds, the accumulator [NewFortuna] returns has a generator that is
    the same for every seed, keyed from the digest of the empty pool 0; the
    32 events of the seed are still in flight and the pools are empty. *)
Theorem NewFortuna_before_any_goroutine sha256sum sha1sum now seed :
  128 <= len seed ->
  exists a,
    NewFortuna sha256sum sha1sum now [] seed = Ok (inl a) /\
    generator_ a
    = afterWrite (fresh (Hash.New (Hash.sha256 sha256sum))) (sha256sum []) /\
    pools a = repeat (poolHolding sha256sum []) 32 /\
    length (inflight a) = 32%nat /\
    numReseed a = 1 /\ nextPool a = 0.
Proof.
  intros Hs. rewrite NewFortuna_unfold by exact Hs.
  cbn [runGoroutines fold_left].
  set (bufs := _ :: eventsFrom sha1sum 1 _).
  destruct (reseed_eq (withInflight (emptyAcc sha256sum) bufs) now
              (emptyAcc_wf sha256sum bufs)) as [Hr _].
  cbv zeta in Hr. rewrite Hr. cbn [bind]. eexists. split; [reflexivity |].
  cbn [generator_ pools inflight numReseed nextPool withInflight emptyAcc].
  change (wrapInt (0 + 1)) with 1. change (selected 1) with 1%nat.
  cbn [firstn skipn repeat map concat app digestOf Hash_ Hash.New
       Hash.alg Hash.written Hash.sha256 Hash.digest].
  split; [now rewrite app_nil_r |].
  split; [reflexivity |].
  split; [| split; reflexivity].
  subst bufs. cbn [length]. unfold eventsFrom.
  now rewrite length_map, length_combine, length_seq, allot_length.
Qed.

Lemma NewFortuna_before_any_goroutine_witness :
  exists a,
    NewFortuna (Instances.sumDigest 32) (Instances.sumDigest 20) 9 []
      Instances.seed128 = Ok (inl a) /\
    generator_ a
    = afterWrite (fresh (Hash.New (Hash.sha256 (Instances.sumDigest 32))))
        (Instances.sumDigest 32 []).
Proof.
  destruct (NewFortuna_before_any_goroutine
              (Instances.sumDigest 32) (Instances.sumDigest 20) 9
              Instances.seed128) as (a & Ha & Hg & _).
  - vm_compute. discriminate.
  - exists a. split; assumption.
Defined.

Lemma countedWrite_empty sha256sum buffer :
  len buffer <= maxInt ->
  fst (countedWrite (poolHolding sha256sum []) buffer)
  = poolHolding sha256sum buffer.
Proof.
  intros Hb. unfold countedWrite, poolHolding.
  cbn [Hash_ length_ Hash.Write Hash.alg Hash.written fst app len length
       Z.of_nat].
  rewrite Z.add_0_l, wrapInt_small; [reflexivity |].
  unfold maxInt, intBits in Hb. change (64 - 1) with 63 in Hb.
  unfold len in *. lia.
Qed.

(** The goroutines run in the order of their events: the [i]-th buffer
    goes to the [i]-th free pool. *)
Lemma deliver_in_order sha256sum : forall bufs done a,
  Forall (fun b => len b <= maxInt) bufs ->
  (length done + length bufs <= 32)%nat ->
  inflight a = bufs ->
  pools a = map (poolHolding sha256sum) done
            ++ repeat (poolHolding sha256sum []) (32 - length done) ->
  nextPool a = Z.of_nat (length done) mod 32 ->
  runGoroutines (repeat 0%nat (length bufs)) a
  = {| numReseed := numReseed a;
       nextPool := Z.of_nat (length done + length bufs) mod 32;
       lastReseed := lastReseed a;
       generator_ := generator_ a;
       pools := map (poolHolding sha256sum) (done ++ bufs)
                ++ repeat (poolHolding sha256sum [])
                     (32 - length done - length bufs);
       inflight := [] |}.
Proof.
  induction bufs as [| b bufs IH]; intros done a Hb Hlen Hin Hp Hn.
  - cbn [length repeat runGoroutines fold_left].
    rewrite Nat.add_0_r, Nat.sub_0_r, app_nil_r, <- Hp, <- Hn, <- Hin.
    now destruct a.
  - cbn [length] in Hlen. inversion Hb as [| ? ? Hb1 Hb2]; subst.
    cbn [length repeat]. 
    change (runGoroutines (0%nat :: ?s) a)
      with (runGoroutines s (deliver 0 a)).
    assert (Hd : (length done < 32)%nat) by lia.
    assert (Hnp : nextPool a = Z.of_nat (length done))
      by (rewrite Hn; apply Z.mod_small; lia).
    assert (Hrep : repeat (poolHolding sha256sum []) (32 - length done)
                   = [poolHolding sha256sum []]
                     ++ repeat (poolHolding sha256sum []) (32 - length done - 1)).
    { replace (32 - length done)%nat with (S (32 - length done - 1)) at 1
        by lia. reflexivity. }
    assert (Hdel : deliver 0 a
              = {| numReseed := numReseed a;
                   nextPool := Z.of_nat (length (done ++ [b])) mod 32;
                   lastReseed := lastReseed a;
                   generator_ := generator_ a;
                   pools := map (poolHolding sha256sum) (done ++ [b])
                            ++ repeat (poolHolding sha256sum [])
                                 (32 - length (done ++ [b]));
                   inflight := bufs |}).
    { unfold deliver. rewrite Hin. cbn [nth_error].
      rewrite Hp, Hnp, Nat2Z.id.
      rewrite nth_error_app2 by (rewrite length_map; lia).
      rewrite length_map, Nat.sub_diag, Hrep. cbn [nth_error app].
      pose proof (countedWrite_empty sha256sum b Hb1) as Hw.
      destruct (countedWrite (poolHolding sha256sum []) b) as [p' l'].
      cbn [fst] in Hw. subst p'.
      f_equal.
      - unfold numPools. rewrite length_app. cbn [length]. f_equal. lia.
      - unfold List.upd.
        etransitivity.
        { apply (upds_at (map (poolHolding sha256sum) done)
                   [poolHolding sha256sum []]
                   (repeat (poolHolding sha256sum []) (32 - length done - 1))
                   [poolHolding sha256sum b] (length done));
            [now rewrite length_map | reflexivity]. }
        rewrite map_app, <- app_assoc. cbn [map app].
        rewrite length_app. cbn [length].
        do 3 f_equal. lia. }
    rewrite Hdel.
    rewrite (IH (done ++ [b])); cbn [inflight pools nextPool numReseed
                                     lastReseed generator_];
      try reflexivity; try assumption.
    + rewrite length_app. cbn [length]. rewrite <- app_assoc. cbn [app].
      f_equal; [f_equal; lia | do 2 f_equal; lia].
    + rewrite length_app. cbn [length]. lia.
Qed.

Lemma eventBuffer_fits sha1sum source data :
  (forall m, length (sha1sum m) = 20%nat) ->
  len (eventBuffer sha1sum source data) <= maxInt.
Proof.
  intros Hsha.
  pose proof (eventBuffer_length sha1sum source data Hsha) as Hl.
  assert (Hmax : 34 <= maxInt) by (vm_compute; discriminate).
  unfold len. lia.
Qed.

Lemma eventsFrom_fit sha1sum i shares :
  (forall m, length (sha1sum m) = 20%nat) ->
  Forall (fun b => len b <= maxInt) (eventsFrom sha1sum i shares).
Proof.
  intros Hsha. unfold eventsFrom.
  apply Forall_forall. intros b Hb.
  apply in_map_iff in Hb. destruct Hb as (e & Hb & _). rewrite <- Hb.
  now apply eventBuffer_fits.
Qed.

Lemma eventsFrom_length sha1sum i shares :
  length (eventsFrom sha1sum i shares) = length shares.
Proof.
  unfold eventsFrom.
  rewrite length_map, length_combine, length_seq. apply Nat.min_id.
Qed.

(** The constructor from the last [AddRandomEvent] on, its 32 goroutines
    running in the order of their events. *)
Lemma in_order_then_reseed sha256sum now b0 evs :
  Forall (fun b => len b <= maxInt) (b0 :: evs) ->
  length evs = 31%nat ->
  reseed
    (runGoroutines (repeat 0%nat 32)
       (withInflight (emptyAcc sha256sum) (b0 :: evs))) now
  = Ok {| numReseed := 1;
          nextPool := 0;
          lastReseed := now;
          generator_ :=
            afterWrite (fresh (Hash.New (Hash.sha256 sha256sum)))
              (sha256sum b0);
          pools := poolHolding sha256sum []
                   :: map (poolHolding sha256sum) evs;
          inflight := [] |}.
Proof.
  intros Hfit Hlen.
  assert (Hl : length (b0 :: evs) = 32%nat) by (cbn [length]; lia).
  rewrite <- Hl at 1.
  rewrite (deliver_in_order sha256sum (b0 :: evs) []
             (withInflight (emptyAcc sha256sum) (b0 :: evs)) Hfit);
    [| rewrite Hl; cbn; lia | reflexivity | reflexivity | reflexivity].
  rewrite Hl.
  cbn [withInflight emptyAcc numReseed lastReseed generator_ app length
       Nat.add].
  change (Z.of_nat 32 mod 32) with 0.
  change (32 - 0 - 32)%nat with 0%nat. cbn [repeat]. rewrite app_nil_r.
  set (a1 := {| numReseed := 0; nextPool := 0; lastReseed := 0;
                generator_ := fresh (Hash.New (Hash.sha256 sha256sum));
                pools := map (poolHolding sha256sum) (b0 :: evs);
                inflight := [] |}).
  assert (Hwf : wfAcc a1).
  { constructor; cbn [a1 pools nextPool generator_].
    - rewrite length_map, Hl. reflexivity.
    - cbv. split; congruence.
    - reflexivity. }
  destruct (reseed_eq a1 now Hwf) as [Hr _]. cbv zeta in Hr. rewrite Hr.
  cbn [a1 generator_ pools inflight numReseed nextPool].
  change (wrapInt (0 + 1)) with 1. change (selected 1) with 1%nat.
  cbn [firstn skipn map concat app digestOf poolHolding Hash_
       Hash.alg Hash.written Hash.sha256 Hash.digest].
  now rewrite app_nil_r.
Qed.

(** X14. When the 32 goroutines of the constructor take the lock in the order
    of their events, before the constructor reseeds, the event of source
    [i] is what pool [i] holds, for [i] from 1 to 31; pool 0 received the
    22-byte buffer of the 64-byte block (its SHA-1 digest behind the two
    header bytes) and was emptied by the reseed, which keyed the generator
    from its digest; nothing is left in flight and [nextPool] is back
    at 0. *)
Theorem NewFortuna_in_submission_order sha256sum sha1sum now seed :
  (forall m, length (sha1sum m) = 20%nat) ->
  128 <= len seed ->
  let b0 := eventBuffer sha1sum x00 (repeat x00 16 ++ firstn 48 seed) in
  let shares := allot 31 (skipn 80 seed) in
  exists a,
    NewFortuna sha256sum sha1sum now (repeat 0%nat 32) seed = Ok (inl a) /\
    inflight a = [] /\ nextPool a = 0 /\ numReseed a = 1 /\
    generator_ a
    = afterWrite (fresh (Hash.New (Hash.sha256 sha256sum))) (sha256sum b0) /\
    pools a
    = poolHolding sha256sum []
      :: map (poolHolding sha256sum) (eventsFrom sha1sum 1 shares) /\
    b0 = x00 :: x40 :: sha1sum (repeat x00 16 ++ firstn 48 seed).
Proof.
  intros Hsha Hs b0 shares. rewrite NewFortuna_unfold by exact Hs.
  fold b0. fold shares.
  assert (Hlen : length (eventsFrom sha1sum 1 shares) = 31%nat).
  { rewrite eventsFrom_length. apply allot_length. }
  assert (Hfit : Forall (fun b => len b <= maxInt)
                   (eventsFrom sha1sum 1 shares))
    by now apply eventsFrom_fit.
  revert Hlen Hfit. generalize (eventsFrom sha1sum 1 shares).
  intros evs Hlen Hfit.
  assert (Hb0 : b0 = x00 :: x40 :: sha1sum (repeat x00 16 ++ firstn 48 seed)).
  { subst b0. rewrite eventBuffer_large.
    - do 2 f_equal. unfold len.
      rewrite length_app, repeat_length, length_firstn.
      replace (Nat.min 48 (length seed)) with 48%nat
        by (unfold len in Hs; lia).
      reflexivity.
    - unfold len. rewrite length_app, repeat_length, length_firstn.
      unfold len in Hs. lia. }
  assert (Hfit0 : len b0 <= maxInt) by now apply eventBuffer_fits.
  clearbody b0.
  rewrite (in_order_then_reseed sha256sum now b0 evs);
    [| constructor; assumption | exact Hlen].
  cbn [bind]. eexists. split; [reflexivity |].
  cbn [generator_ pools inflight numReseed nextPool].
  repeat split. exact Hb0.
Qed.

Lemma NewFortuna_in_submission_order_witness :
  exists a,
    NewFortuna (Instances.sumDigest 32) (Instances.sumDigest 20) 9
      (repeat 0%nat 32) Instances.seed128 = Ok (inl a) /\
    inflight a = [] /\ nextPool a = 0 /\ numReseed a = 1.
Proof.
  destruct (NewFortuna_in_submission_order
              (Instances.sumDigest 32) (Instances.sumDigest 20) 9
              Instances.seed128) as (a & Ha & Hi & Hn & Hr & _).
  - intros m. unfold Instances.sumDigest. now rewrite length_map, length_seq.
  - vm_compute. discriminate.
  - exists a. repeat split; assumption.
Defined.
End FortunaMore.

(* ===================================================================== *)
(** ** Further properties: prepare and the accumulator's Read *)
(* ===================================================================== *)

Module FortunaReadFacts.
Import Counter Generator GeneratorSpec Fortuna FortunaSpec FortunaRead MoreSpec.
Import GeneratorFacts GeneratorClaims FortunaFacts GeneratorMore FortunaMore.

Lemma setLastReseed_wf a t : wfAcc a -> wfAcc (setLastReseed a t).
Proof. intros [Hp Hn Hb]. constructor; assumption. Qed.

Lemma pool0_exists a : wfAcc a -> exists p0, nth_error (pools a) 0 = Some p0.
Proof.
  intros [Hp _ _]. change (Z.to_nat numPools) with 32%nat in Hp.
  destruct (pools a) as [| p0 rest]; [discriminate |]. now exists p0.
Qed.

Section Clock.
Variable After : Time -> Time -> bool.
Variable Add : Time -> Z -> Time.

(** X15. [prepare] reseeds only when it is due: pool 0 counts at least
    [minPoolSize = 64] bytes and [now] is after the last reseed (the zero
    time if the clock went back) plus [reseedInterval]. Then the reseed
    count is stepped, [now] is recorded and pool 0 is emptied; otherwise
    the count, the pools and the generator are left as they are. Events in
    flight and [nextPool] are never touched. *)
Theorem prepare_reseeds_only_when_due a now :
  wfAcc a ->
  let last := if After (lastReseed a) now then 0 else lastReseed a in
  exists p0 a',
    nth_error (pools a) 0 = Some p0 /\
    prepare After Add a now = Ok a' /\
    nextPool a' = nextPool a /\ inflight a' = inflight a /\
    (minPoolSize <= length_ p0 ->
     After now (Add last reseedInterval) = true ->
     numReseed a' = wrapInt (numReseed a + 1) /\
     lastReseed a' = now /\
     nth_error (pools a') 0
     = Some {| Hash_ := {| Hash.alg := Hash.alg (Hash_ p0);
                           Hash.written := [] |};
               length_ := 0 |}) /\
    (length_ p0 < minPoolSize \/
     After now (Add last reseedInterval) = false ->
     numReseed a' = numReseed a /\ lastReseed a' = last /\
     pools a' = pools a /\ generator_ a' = generator_ a).
Proof.
  intros Hwf last.
  destruct (pool0_exists a Hwf) as (p0 & Hp0).
  set (a0 := setLastReseed a last).
  assert (Ha0 : (if After (lastReseed a) now then setLastReseed a 0 else a)
                = a0).
  { subst a0 last. destruct (After (lastReseed a) now); [reflexivity |].
    now destruct a. }
  assert (Hwf0 : wfAcc a0) by now apply setLastReseed_wf.
  destruct (reseed_eq a0 now Hwf0) as [Hr [Hk1 Hk32]]. cbv zeta in Hr.
  exists p0.
  unfold prepare. rewrite Ha0.
  change (pools a0) with (pools a). rewrite Hp0.
  change (lastReseed a0) with last.
  destruct ((length_ p0 >=? minPoolSize)
            && After now (Add last reseedInterval)) eqn:Edue.
  - apply andb_prop in Edue. destruct Edue as [E1 E2].
    rewrite Hr. eexists. split; [reflexivity |]. split; [reflexivity |].
    cbn [nextPool inflight numReseed lastReseed pools generator_].
    split; [reflexivity |]. split; [reflexivity |].
    split.
    + intros _ _. split; [reflexivity |]. split; [reflexivity |].
      change (pools a0) with (pools a).
      destruct (pools a) as [| q rest]; [discriminate |].
      cbn [nth_error] in Hp0. inversion Hp0; subst q.
      destruct (selected (wrapInt (numReseed a0 + 1))) as [| k];
        [lia | reflexivity].
    + intros [Hlt | Hf].
      * apply Z.geb_le in E1. lia.
      * rewrite Hf in E2. discriminate.
  - eexists. split; [reflexivity |]. split; [reflexivity |].
    split; [reflexivity |]. split; [reflexivity |].
    split.
    + intros H1 H2. exfalso.
      apply andb_false_iff in Edue. destruct Edue as [E | E].
      * apply Z.geb_le in H1. rewrite H1 in E. discriminate.
      * rewrite H2 in E. discriminate.
    + intros _. repeat split.
Qed.

Lemma sha256_lawful sha256sum :
  (forall m, length (sha256sum m) = 32%nat) -> lawful (Hash.sha256 sha256sum).
Proof. intros H m. apply H. Qed.

Lemma ready_reseed sha256sum a now :
  (forall m, length (sha256sum m) = 32%nat) ->
  ready sha256sum a ->
  exists a', reseed a now = Ok a' /\ ready sha256sum a'.
Proof.
  intros Hsha [Hacc Hgen Hinit Halg].
  destruct (reseed_eq a now Hacc) as [Hr _]. cbv zeta in Hr.
  eexists. split; [exact Hr |].
  pose proof Hacc as [Hp Hn Hb].
  constructor; cbn [generator_].
  - constructor; cbn [pools nextPool generator_]; try assumption.
    rewrite length_app, length_map, length_firstn, length_skipn.
    change (Z.to_nat numPools) with 32%nat in *. lia.
  - apply afterWrite_wf; [| exact Hgen].
    rewrite Halg. now apply sha256_lawful.
  - reflexivity.
  - exact Halg.
Qed.

Lemma ready_prepare sha256sum a now :
  (forall m, length (sha256sum m) = 32%nat) ->
  ready sha256sum a ->
  exists a',
    prepare After Add a now = Ok a' /\ ready sha256sum a' /\
    nextPool a' = nextPool a /\ inflight a' = inflight a.
Proof.
  intros Hsha Hready. pose proof Hready as [Hacc Hgen Hinit Halg].
  destruct (pool0_exists a Hacc) as (p0 & Hp0).
  set (a0 := if After (lastReseed a) now then setLastReseed a 0 else a).
  assert (Hr0 : ready sha256sum a0 /\ pools a0 = pools a /\
                nextPool a0 = nextPool a /\ inflight a0 = inflight a).
  { subst a0. destruct (After (lastReseed a) now);
      [| split; [exact Hready | repeat split]].
    split; [| repeat split].
    constructor; cbn [setLastReseed generator_]; try assumption.
    now apply setLastReseed_wf. }
  destruct Hr0 as (Hready0 & Hpools0 & Hn0 & Hi0).
  unfold prepare. fold a0. rewrite Hpools0, Hp0.
  destruct ((length_ p0 >=? minPoolSize)
            && After now (Add (lastReseed a0) reseedInterval)).
  - destruct (ready_reseed sha256sum a0 now Hsha Hready0) as (a' & Hr & Hrd).
    exists a'. split; [exact Hr |]. split; [exact Hrd |].
    destruct (reseed_eq a0 now (ready_acc _ _ Hready0)) as [Heq _].
    cbv zeta in Heq. rewrite Heq in Hr. inversion Hr; subst a'.
    cbn [nextPool inflight]. split; assumption.
  - exists a0. split; [reflexivity |].
    split; [exact Hready0 | split; assumption].
Qed.

(** X16. On an accumulator in the state [NewFortuna] leaves (32 pools and a
    seeded SHA-256 generator), with 32-byte digests and 16-byte blocks,
    [Read] always returns [min(len(buf), 2^20)] and no error, whatever the
    clock says and whether or not it reseeded on the way; the accumulator
    stays in that state, and the events in flight and [nextPool] are
    untouched. *)
Theorem Fortuna_Read_returns_up_to_1MiB E sha256sum a now data :
  blockLaw E ->
  (forall m, length (sha256sum m) = 32%nat) ->
  ready sha256sum a ->
  exists data' a',
    FortunaRead.Read After Add E a now data
    = Ok ((Z.min (len data) (2 ^ 20), None), data', a') /\
    length data' = length data /\
    ready sha256sum a' /\
    nextPool a' = nextPool a /\ inflight a' = inflight a.
Proof.
  intros HE Hsha Hready.
  destruct (ready_prepare sha256sum a now Hsha Hready)
    as (a1 & Hprep & Hready1 & Hn & Hi).
  pose proof Hready1 as [Hacc Hgen Hinit Halg].
  assert (Hv : validKeySize (Hash.Size (Hash.alg (h (generator_ a1)))))
    by (rewrite Halg; right; right; reflexivity).
  assert (Hmax : maxBytesPerRequest (generator_ a1) = 2 ^ 20)
    by (rewrite (wf_max _ Hgen), Halg; reflexivity).
  unfold FortunaRead.Read. rewrite Hprep. cbn [bind].
  rewrite (Read_ok E HE (generator_ a1) data Hgen Hinit Hv). cbn [bind].
  rewrite Hmax.
  set (n := Nat.min (length data) (Z.to_nat (2 ^ 20))).
  replace (Z.of_nat n) with (Z.min (len data) (2 ^ 20))
    by (unfold len; subst n; lia).
  eexists. eexists. split; [reflexivity |].
  split.
  { rewrite length_app, length_firstn, length_skipn,
      (keystream_length E HE).
    pose proof (blocksFor_covers n). subst n. lia. }
  split; [| split; assumption].
  constructor; cbn [generator_].
  - pose proof Hacc as [Hp Hnp Hb]. constructor; assumption.
  - apply afterRead_wf; assumption.
  - exact Hinit.
  - exact Halg.
Qed.
End Clock.

(** X17. [NewFortuna] leaves the accumulator in the state [ready], whatever
    goroutines ran before its reseed, and submitting an event, running a
    goroutine and reseeding keep it there. *)
Theorem NewFortuna_accumulator_stays_ready sha256sum sha1sum :
  (forall m, length (sha256sum m) = 32%nat) ->
  (forall now sched seed,
     128 <= len seed ->
     exists a,
       NewFortuna sha256sum sha1sum now sched seed = Ok (inl a) /\
       ready sha256sum a) /\
  (forall a, ready sha256sum a ->
     (forall source data, ready sha256sum (AddRandomEvent sha1sum a source data)) /\
     (forall k, ready sha256sum (deliver k a)) /\
     (forall now, exists a', reseed a now = Ok a' /\ ready sha256sum a')).
Proof.
  intros Hsha. split.
  - intros now sched seed Hs. rewrite NewFortuna_unfold by exact Hs.
    generalize (eventBuffer sha1sum x00 (repeat x00 16 ++ firstn 48 seed)
                :: eventsFrom sha1sum 1 (allot 31 (skipn 80 seed))).
    intros bufs.
    set (a1 := withInflight (emptyAcc sha256sum) bufs).
    destruct (runGoroutines_inv sched a1 (emptyAcc_wf _ _)) as (Hwf & Hn & Hg).
    destruct (reseed_eq (runGoroutines sched a1) now Hwf) as [Hr _].
    cbv zeta in Hr. rewrite Hr. cbn [bind]. eexists. split; [reflexivity |].
    pose proof Hwf as [Hp Hnp Hb].
    constructor; cbn [generator_].
    + constructor; cbn [pools nextPool generator_]; try assumption.
      rewrite length_app, length_map, length_firstn, length_skipn.
      change (Z.to_nat numPools) with 32%nat in *. lia.
    + rewrite Hg. apply afterWrite_wf.
      * now apply sha256_lawful.
      * apply fresh_wf. reflexivity.
    + reflexivity.
    + rewrite Hg. reflexivity.
  - intros a Hready. pose proof Hready as [Hacc Hgen Hinit Halg].
    split; [| split].
    + intros source data. constructor; cbn [AddRandomEvent generator_];
        try assumption.
      pose proof Hacc as [Hp Hnp Hb]. constructor; assumption.
    + intros k. destruct (deliver_inv k a Hacc) as (Hwf' & _ & Hg).
      constructor; rewrite ?Hg; assumption.
    + intros now. now apply ready_reseed.
Qed.

Lemma NewFortuna_accumulator_stays_ready_witness :
  exists a,
    NewFortuna (Instances.sumDigest 32) (Instances.sumDigest 20) 4 [1%nat]
      Instances.seed128 = Ok (inl a) /\
    ready (Instances.sumDigest 32) a.
Proof.
  apply (proj1 (NewFortuna_accumulator_stays_ready
                  (Instances.sumDigest 32) (Instances.sumDigest 20)
                  (fun m => eq_trans (length_map _ _) (length_seq _ _)))).
  vm_compute. discriminate.
Defined.

Lemma sumDigest_length n m : length (Instances.sumDigest n m) = n.
Proof. unfold Instances.sumDigest. now rewrite length_map, length_seq. Qed.

Lemma accAfter_ready n : ready (Instances.sumDigest 32) (Instances.accAfter n).
Proof.
  destruct (seeded_wf (Hash.sha256 (Instances.sumDigest 32)) [x00])
    as (Hwf & Hinit & Halg).
  - intros m. apply sumDigest_length.
  - cbn. lia.
  - reflexivity.
  - discriminate.
  - constructor; [apply accAfter_wf | exact Hwf | exact Hinit | exact Halg].
Qed.

Lemma prepare_reseeds_only_when_due_witness :
  exists p0 a',
    nth_error (pools (Instances.accAfter 3)) 0 = Some p0 /\
    prepare (fun t u => u <? t) Z.add (Instances.accAfter 3) 5 = Ok a' /\
    nextPool a' = 0 /\ inflight a' = [].
Proof.
  destruct (prepare_reseeds_only_when_due (fun t u => u <? t) Z.add
              (Instances.accAfter 3) 5 (accAfter_wf 3))
    as (p0 & a' & Hp & Hr & Hn & Hi & _).
  exists p0, a'. repeat split; assumption.
Defined.

Lemma Fortuna_Read_returns_up_to_1MiB_witness :
  exists data' a',
    FortunaRead.Read (fun t u => u <? t) Z.add Instances.xorBlock
      (Instances.accAfter 3) 5 (Slice.make 10)
    = Ok ((Z.min (len (Slice.make 10)) (2 ^ 20), None), data', a') /\
    length data' = length (Slice.make 10).
Proof.
  destruct (Fortuna_Read_returns_up_to_1MiB (fun t u => u <? t) Z.add
              Instances.xorBlock (Instances.sumDigest 32)
              (Instances.accAfter 3) 5 (Slice.make 10)
              xorBlock_law (sumDigest_length 32) (accAfter_ready 3))
    as (d & a' & HR & Hl & _).
  exists d, a'. split; assumption.
Defined.
End FortunaReadFacts.
